(** * Office inventory store: the record access layer of [main.py]

    [InventoryManager] keeps one SQLite table, [inventory], and offers
    [create_item], [read_items], [update_item] and [delete_item].  Every
    method wraps its body in [try ... except ValueError / sqlite3.Error],
    reports on the console with [print] and returns [None] (only
    [read_items] returns rows).

    The embedding follows the source line by line:
    - Python values that reach the methods are [None], [int] and [str]
      ([pyval]); [str] is a byte string (its UTF-8 encoding);
    - a method body is a computation in a small state-and-exception monad
      over the durable table and the console; [try_except] is the
      [except] clauses;
    - the two statements that the source assembles by string concatenation
      ([SELECT] in [read_items], [UPDATE] in [update_item]) are assembled
      as text here too, and the engine model reads that text back;
    - [datetime.strptime] and the SQLite engine are modelled in the
      modules [Datetime] and [Sqlite] as far as the source uses them.
      Engine limits (64-bit integers, maximum pattern length) and decimal
      digits outside ASCII are not modelled. *)

From Stdlib Require Import ZArith List String Ascii Bool Lia.
From Stdlib Require Import Sorting.Sorted Sorting.Permutation DecimalString.
Import ListNotations.
Local Open Scope string_scope.
Local Open Scope Z_scope.

(** ** Python values *)

Inductive pyval : Type :=
| PNone
| PInt (n : Z)
| PStr (s : string).

(** [bool(v)] for the values above. *)
Definition truthy (v : pyval) : bool :=
  match v with
  | PNone => false
  | PInt n => negb (n =? 0)
  | PStr s => negb (s =? "")%string
  end.

(** [str(n)] for an [int]. *)
Definition str_of_int (n : Z) : string := NilZero.string_of_int (Z.to_int n).

(** ** [datetime.strptime(s, '%Y-%m-%d')] *)

Module Datetime.

Record date : Type := mkDate { year : Z; month : Z; day : Z }.

Definition in_range (lo hi c : ascii) : bool :=
  (nat_of_ascii lo <=? nat_of_ascii c)%nat && (nat_of_ascii c <=? nat_of_ascii hi)%nat.

Definition is_digit (c : ascii) : bool := in_range "0" "9" c.

Definition digit (c : ascii) : Z := Z.of_nat (nat_of_ascii c) - 48.

(** [%Y] is the regular expression [\d\d\d\d] followed, in the format,
    by a literal [-]. *)
Definition parse_year (s : string) : option (Z * string) :=
  match s with
  | String a (String b (String c (String d (String "-" rest)))) =>
      if is_digit a && is_digit b && is_digit c && is_digit d
      then Some (1000 * digit a + 100 * digit b + 10 * digit c + digit d, rest)
      else None
  | _ => None
  end.

(** [%m] is [1[0-2]|0[1-9]|[1-9]], alternatives tried left to right,
    each followed by the literal [-] of the format. *)
Definition parse_month (s : string) : option (Z * string) :=
  let one (a b : ascii) (rest : string) :=
    if Ascii.eqb b "-" && in_range "1" "9" a then Some (digit a, rest) else None in
  match s with
  | String a (String b (String c rest)) =>
      if Ascii.eqb c "-"
         && ((Ascii.eqb a "1" && in_range "0" "2" b)
             || (Ascii.eqb a "0" && in_range "1" "9" b))
      then Some (10 * digit a + digit b, rest)
      else one a b (String c rest)
  | String a (String b rest) => one a b rest
  | _ => None
  end.

(** [%d] is [3[0-1]|[1-2]\d|0[1-9]|[1-9]| [1-9]]; it ends the format, so
    whatever the first matching alternative leaves over is
    "unconverted data" and a [ValueError]. *)
Definition parse_day (s : string) : option Z :=
  match s with
  | String a EmptyString =>
      if in_range "1" "9" a then Some (digit a) else None
  | String a (String b EmptyString) =>
      if (Ascii.eqb a "3" && in_range "0" "1" b)
         || (in_range "1" "2" a && is_digit b)
         || (Ascii.eqb a "0" && in_range "1" "9" b)
      then Some (10 * digit a + digit b)
      else if Ascii.eqb a " " && in_range "1" "9" b then Some (digit b)
      else None
  | _ => None
  end.

Definition is_leap (y : Z) : bool :=
  (y mod 4 =? 0) && (negb (y mod 100 =? 0) || (y mod 400 =? 0)).

Definition days_in_month (y m : Z) : Z :=
  if m =? 2 then (if is_leap y then 29 else 28)
  else if (m =? 4) || (m =? 6) || (m =? 9) || (m =? 11) then 30
  else 31.

(** [None] stands for the [ValueError] of [strptime]: the text does not
    match the format, or names no calendar day ([date(y, m, d)] needs
    [1 <= y] and [d <= days_in_month]). *)
Definition strptime (s : string) : option date :=
  match parse_year s with
  | None => None
  | Some (y, s1) =>
      match parse_month s1 with
      | None => None
      | Some (m, s2) =>
          match parse_day s2 with
          | None => None
          | Some d =>
              if (1 <=? y) && (d <=? days_in_month y m)
              then Some (mkDate y m d) else None
          end
      end
  end.

End Datetime.

(** ** The table and the SQLite engine *)

(** One row of [inventory], in column order. *)
Record item : Type := mkItem {
  id : Z;
  name : string;
  category : string;
  quantity : Z;
  purchase_date : string;
  status : string;
  location : string;
  responsible_person : string;
  notes : string
}.

(** The table in rowid order, and the counter that [AUTOINCREMENT] keeps
    in [sqlite_sequence]: the largest id ever given out. *)
Record db : Type := mkDb { rows : list item; seq : Z }.

(** [init_db] on a fresh file: [CREATE TABLE IF NOT EXISTS] leaves an
    existing table alone. *)
Definition empty_db : db := mkDb [] 0.

Inductive column : Type :=
| Cid | Cname | Ccategory | Cquantity | Cpurchase_date
| Cstatus | Clocation | Cresponsible_person | Cnotes.

Definition column_name (c : column) : string :=
  match c with
  | Cid => "id"
  | Cname => "name"
  | Ccategory => "category"
  | Cquantity => "quantity"
  | Cpurchase_date => "purchase_date"
  | Cstatus => "status"
  | Clocation => "location"
  | Cresponsible_person => "responsible_person"
  | Cnotes => "notes"
  end.

Definition all_columns : list column :=
  [Cid; Cname; Ccategory; Cquantity; Cpurchase_date;
   Cstatus; Clocation; Cresponsible_person; Cnotes].

Definition data_columns : list column := tl all_columns.

Module Sqlite.

(** *** [LIKE] *)

Definition code (c : ascii) : nat := nat_of_ascii c.

(** ASCII letters compare without case; other bytes exactly. *)
Definition lower (c : ascii) : ascii :=
  if (65 <=? code c)%nat && (code c <=? 90)%nat
  then ascii_of_nat (code c + 32) else c.

Definition is_continuation (c : ascii) : bool :=
  (128 <=? code c)%nat && (code c <? 192)%nat.

Fixpoint skip_continuation (s : string) : string :=
  match s with
  | String c s' => if is_continuation c then skip_continuation s' else s
  | EmptyString => s
  end.

(** One UTF-8 character off the front, as [_] consumes it. *)
Definition skip_char (s : string) : option string :=
  match s with
  | EmptyString => None
  | String c s' => Some (if (192 <=? code c)%nat then skip_continuation s' else s')
  end.

Definition at_char (s : string) : bool :=
  match s with
  | String c _ => negb (is_continuation c)
  | EmptyString => true
  end.

(** [text LIKE pattern]: [%] is any run of characters, [_] any one
    character, there is no escape character. *)
Fixpoint like (pattern text : string) {struct pattern} : bool :=
  match pattern with
  | EmptyString => (text =? "")%string
  | String p pattern' =>
      if Ascii.eqb p "%" then
        (fix any (t : string) : bool :=
           (at_char t && like pattern' t)
           || match t with
              | EmptyString => false
              | String _ t' => any t'
              end) text
      else if Ascii.eqb p "_" then
        match skip_char text with
        | Some text' => like pattern' text'
        | None => false
        end
      else
        match text with
        | String c text' => Ascii.eqb (lower p) (lower c) && like pattern' text'
        | EmptyString => false
        end
  end.

(** *** Columns of a row *)

(** The value of a column as [LIKE] sees it: integers as decimal text. *)
Definition text_of (c : column) (r : item) : string :=
  match c with
  | Cid => str_of_int (id r)
  | Cname => name r
  | Ccategory => category r
  | Cquantity => str_of_int (quantity r)
  | Cpurchase_date => purchase_date r
  | Cstatus => status r
  | Clocation => location r
  | Cresponsible_person => responsible_person r
  | Cnotes => notes r
  end.

(** Binding a parameter to a column of the row being written.  A [TEXT]
    column keeps a [str] and stores an [int] as its decimal text; the
    [INTEGER] column keeps an [int].  [None] is returned for what the
    typed row cannot hold ([NULL], text in [quantity], a new [id]). *)
Definition set_column (c : column) (v : pyval) (r : item) : option item :=
  let text (f : string -> item) :=
    match v with
    | PStr s => Some (f s)
    | PInt n => Some (f (str_of_int n))
    | PNone => None
    end in
  match c with
  | Cid => None
  | Cname =>
      text (fun s => mkItem (id r) s (category r) (quantity r) (purchase_date r)
                       (status r) (location r) (responsible_person r) (notes r))
  | Ccategory =>
      text (fun s => mkItem (id r) (name r) s (quantity r) (purchase_date r)
                       (status r) (location r) (responsible_person r) (notes r))
  | Cquantity =>
      match v with
      | PInt n => Some (mkItem (id r) (name r) (category r) n (purchase_date r)
                          (status r) (location r) (responsible_person r) (notes r))
      | _ => None
      end
  | Cpurchase_date =>
      text (fun s => mkItem (id r) (name r) (category r) (quantity r) s
                       (status r) (location r) (responsible_person r) (notes r))
  | Cstatus =>
      text (fun s => mkItem (id r) (name r) (category r) (quantity r) (purchase_date r)
                       s (location r) (responsible_person r) (notes r))
  | Clocation =>
      text (fun s => mkItem (id r) (name r) (category r) (quantity r) (purchase_date r)
                       (status r) s (responsible_person r) (notes r))
  | Cresponsible_person =>
      text (fun s => mkItem (id r) (name r) (category r) (quantity r) (purchase_date r)
                       (status r) (location r) s (notes r))
  | Cnotes =>
      text (fun s => mkItem (id r) (name r) (category r) (quantity r) (purchase_date r)
                       (status r) (location r) (responsible_person r) s)
  end.

(** Assignments left to right; the statement supplies as many values as
    columns. *)
Fixpoint set_columns (cs : list column) (vs : list pyval) (r : item) : option item :=
  match cs, vs with
  | [], [] => Some r
  | c :: cs', v :: vs' =>
      match set_column c v r with
      | Some r' => set_columns cs' vs' r'
      | None => None
      end
  | _, _ => None
  end.

(** *** [ORDER BY name] *)

(** Text is compared byte by byte (the [BINARY] collation).  The table
    is scanned in rowid order and rows with equal names keep that
    order. *)
Fixpoint insert_by_name (r : item) (l : list item) : list item :=
  match l with
  | [] => [r]
  | x :: l' =>
      if String.leb (name r) (name x) then r :: l else x :: insert_by_name r l'
  end.

Definition order_by_name (l : list item) : list item :=
  fold_right insert_by_name [] l.

(** *** Statements *)

(** The statement shapes that the four methods send.  [Select] and
    [Update] list the columns in the order of their [?] placeholders. *)
Inductive statement : Type :=
| Insert
| Select (conditions : list column)
| Update (assignments : list column)
| Delete.

Fixpoint strip_prefix (p s : string) : option string :=
  match p, s with
  | EmptyString, _ => Some s
  | String a p', String b s' => if Ascii.eqb a b then strip_prefix p' s' else None
  | String _ _, EmptyString => None
  end.

(** The first column of [cs] whose name, followed by [suffix], starts [s]. *)
Fixpoint parse_column (cs : list column) (suffix s : string) : option (column * string) :=
  match cs with
  | [] => None
  | c :: cs' =>
      match strip_prefix (column_name c ++ suffix) s with
      | Some rest => Some (c, rest)
      | None => parse_column cs' suffix s
      end
  end.

(** [column suffix (sep column suffix)* close], to the end of the text. *)
Fixpoint parse_list (fuel : nat) (cs : list column) (suffix sep close s : string)
  : option (list column) :=
  match fuel with
  | O => None
  | S fuel' =>
      match parse_column cs suffix s with
      | None => None
      | Some (c, rest) =>
          if (rest =? close)%string then Some [c]
          else match strip_prefix sep rest with
               | None => None
               | Some rest' =>
                   option_map (cons c) (parse_list fuel' cs suffix sep close rest')
               end
      end
  end.

Definition insert_sql : string :=
  "INSERT INTO inventory (name, category, quantity, purchase_date, status, location, responsible_person, notes) VALUES (?, ?, ?, ?, ?, ?, ?, ?)".

Definition delete_sql : string := "DELETE FROM inventory WHERE id = ?".

(** Reading a statement text.  [None]: the text is none of the shapes
    above, and the model says nothing about what the engine does with
    it. *)
Definition parse (sql : string) : option statement :=
  if (sql =? insert_sql)%string then Some Insert
  else if (sql =? delete_sql)%string then Some Delete
  else
    match strip_prefix "SELECT * FROM inventory" sql with
    | Some rest =>
        if (rest =? " ORDER BY name")%string then Some (Select [])
        else
          match strip_prefix " WHERE " rest with
          | Some conds =>
              option_map Select
                (parse_list (String.length conds) all_columns
                   " LIKE ?" " AND " " ORDER BY name" conds)
          | None => None
          end
    | None =>
        match strip_prefix "UPDATE inventory SET " sql with
        | Some sets =>
            option_map Update
              (parse_list (String.length sets) data_columns
                 " = ?" ", " " WHERE id = ?" sets)
        | None => None
        end
    end.

(** *** Running a statement *)

Inductive outcome : Type :=
| Done (d : db) (rowcount : Z) (fetched : list item)
| Failed          (** the engine raises [sqlite3.Error] *)
| Unmodelled.     (** outside the model *)

(** [AUTOINCREMENT]: one more than the largest id that ever existed. *)
Definition next_id (d : db) : Z :=
  Z.max (seq d) (fold_right Z.max 0 (map id (rows d))) + 1.

Definition pattern_of (v : pyval) : option string :=
  match v with
  | PStr s => Some s
  | PInt n => Some (str_of_int n)
  | PNone => None
  end.

Fixpoint patterns_of (vs : list pyval) : option (list string) :=
  match vs with
  | [] => Some []
  | v :: vs' =>
      match pattern_of v, patterns_of vs' with
      | Some p, Some ps => Some (p :: ps)
      | _, _ => None
      end
  end.

(** The [WHERE] clause: every condition holds. *)
Definition matches (conds : list (column * string)) (r : item) : bool :=
  forallb (fun cp => like (snd cp) (text_of (fst cp) r)) conds.

(** [UPDATE ... WHERE id = target] over the table: the new table and the
    number of rows that matched. *)
Fixpoint update_rows (cs : list column) (vs : list pyval) (target : Z) (l : list item)
  : option (list item * Z) :=
  match l with
  | [] => Some ([], 0)
  | r :: l' =>
      match update_rows cs vs target l' with
      | None => None
      | Some (l'', n) =>
          if id r =? target then
            match set_columns cs vs r with
            | Some r' => Some (r' :: l'', n + 1)
            | None => None
            end
          else Some (r :: l'', n)
      end
  end.

Definition run (d : db) (st : statement) (params : list pyval) : outcome :=
  match st with
  | Insert =>
      if negb (List.length params =? 8)%nat then Failed
      else
        match set_columns data_columns params
                (mkItem (next_id d) "" "" 0 "" "" "" "" "") with
        | Some r => Done (mkDb (rows d ++ [r])%list (next_id d)) 1 []
        | None => Unmodelled
        end
  | Select cs =>
      if negb (List.length params =? List.length cs)%nat then Failed
      else
        match patterns_of params with
        | Some ps =>
            Done d (-1) (order_by_name (filter (matches (combine cs ps)) (rows d)))
        | None => Unmodelled
        end
  | Update cs =>
      if negb (List.length params =? S (List.length cs))%nat then Failed
      else
        match last params PNone with
        | PInt target =>
            match update_rows cs (removelast params) target (rows d) with
            | Some (l, n) => Done (mkDb l (seq d)) n []
            | None => Unmodelled
            end
        | _ => Unmodelled
        end
  | Delete =>
      match params with
      | [PInt target] =>
          let kept := filter (fun r => negb (id r =? target)) (rows d) in
          Done (mkDb kept (seq d))
            (Z.of_nat (List.length (rows d)) - Z.of_nat (List.length kept)) []
      | [_] => Unmodelled
      | _ => Failed
      end
  end.

(** [cursor.execute(sql, params)] on the connection's view [d] of the
    table. *)
Definition execute (d : db) (sql : string) (params : list pyval) : outcome :=
  match parse sql with
  | Some st => run d st params
  | None => Unmodelled
  end.

End Sqlite.

(** ** Console, exceptions and the method monad *)

(** The [ValueError]s of the source, by origin. *)
Inductive value_error : Type :=
| RequiredMissing    (** "all required fields must be filled in" *)
| NegativeQuantity   (** "quantity cannot be negative" *)
| BadDate.           (** raised by [strptime] *)

Inductive exn : Type :=
| ValueError (e : value_error)
| SqliteError        (** [sqlite3.Error] and its subclasses *)
| TypeError
| OutsideModel.      (** the engine was sent a statement outside the model *)

(** The lines the methods print. *)
Inductive message : Type :=
| Added (n : string)       (** "'{name}' added!" *)
| Error (e : value_error)  (** "Error: {e}" *)
| DbError                  (** "DB error: {e}" *)
| ReadError                (** "Read error: {e}" *)
| DeleteError              (** "Delete error: {e}" *)
| NoData                   (** "No data to update" *)
| NoFields                 (** "No fields to update" *)
| NotFound (i : Z)         (** "ID {item_id} not found" *)
| Updated (i : Z)          (** "ID {item_id} updated!" *)
| Deleted (i : Z).         (** "ID {item_id} deleted!" *)

(** What a method hands back to its caller. *)
Inductive pyret : Type :=
| RNone
| RRow (r : item)
| RRows (l : list item).

(** The durable table and everything printed so far. *)
Record world : Type := mkWorld { store : db; console : list message }.

Inductive result (A : Type) : Type :=
| Returned (a : A)
| Raised (e : exn).
Arguments Returned {A} a.
Arguments Raised {A} e.

Definition M (A : Type) : Type := world -> world * result A.

Definition ret {A : Type} (a : A) : M A := fun w => (w, Returned a).

Definition raise {A : Type} (e : exn) : M A := fun w => (w, Raised e).

Definition bind {A B : Type} (c : M A) (k : A -> M B) : M B :=
  fun w =>
    match c w with
    | (w', Returned a) => k a w'
    | (w', Raised e) => (w', Raised e)
    end.

Notation "x <- c1 ;; c2" := (bind c1 (fun x => c2))
  (at level 61, c1 at next level, right associativity).
Notation "c1 ;; c2" := (bind c1 (fun _ => c2))
  (at level 61, right associativity).
Notation "' pat <- c1 ;; c2" := (bind c1 (fun x => match x with pat => c2 end))
  (at level 61, pat pattern, c1 at next level, right associativity).

Definition print (m : message) : M unit :=
  fun w => (mkWorld (store w) (console w ++ [m])%list, Returned tt).

(** [if cond: raise e] *)
Definition raise_if (cond : bool) (e : exn) : M unit :=
  if cond then raise e else ret tt.

(** [try: body  except ...: handler]; an exception the handler does not
    name goes on to the caller. *)
Definition try_except {A : Type} (body : M A) (handler : exn -> option (M A)) : M A :=
  fun w =>
    match body w with
    | (w', Raised e) =>
        match handler e with
        | Some h => h w'
        | None => (w', Raised e)
        end
    | r => r
    end.

Fixpoint for_each {A S : Type} (step : S -> A -> M S) (l : list A) (s : S) : M S :=
  match l with
  | [] => ret s
  | a :: l' => s' <- step s a ;; for_each step l' s'
  end.

(** *** The connection *)

(** Where the engine fails during a call, if it does. *)
Inductive fault : Type := NoFault | FailConnect | FailExecute | FailCommit.

(** What [cursor.execute] leaves: the connection's uncommitted view of the
    table, [cursor.rowcount] and [cursor.fetchall()]. *)
Record cursor : Type := mkCursor { view : db; rowcount : Z; fetchall : list item }.

(** [sqlite3.connect(self.db_name)]: the connection starts from the
    durable table.  Leaving the [with] block on an exception rolls back,
    that is, drops the view. *)
Definition connect (f : fault) : M db :=
  fun w =>
    match f with
    | FailConnect => (w, Raised SqliteError)
    | _ => (w, Returned (store w))
    end.

Definition execute (f : fault) (conn : db) (sql : string) (params : list pyval) : M cursor :=
  match f with
  | FailExecute => raise SqliteError
  | _ =>
      match Sqlite.execute conn sql params with
      | Sqlite.Done d n l => ret (mkCursor d n l)
      | Sqlite.Failed => raise SqliteError
      | Sqlite.Unmodelled => raise OutsideModel
      end
  end.

(** [conn.commit()] makes the view durable. *)
Definition commit (f : fault) (conn : db) : M unit :=
  fun w =>
    match f with
    | FailCommit => (w, Raised SqliteError)
    | _ => (mkWorld conn (console w), Returned tt)
    end.

(** [datetime.strptime(value, '%Y-%m-%d')] *)
Definition strptime (v : pyval) : M Datetime.date :=
  match v with
  | PStr s =>
      match Datetime.strptime s with
      | Some d => ret d
      | None => raise (ValueError BadDate)
      end
  | _ => raise TypeError
  end.

(** [value < 0] *)
Definition lt_zero (v : pyval) : M bool :=
  match v with
  | PInt n => ret (n <? 0)
  | _ => raise TypeError
  end.

(** ** The four methods *)

Section Methods.

Variable f : fault.

(** The two [except] clauses of [create_item] and [update_item]. *)
Definition except_value_or_db (e : exn) : option (M pyret) :=
  match e with
  | ValueError v => Some (print (Error v) ;; ret RNone)
  | SqliteError => Some (print DbError ;; ret RNone)
  | _ => None
  end.

Definition create_item_body
    (name category : string) (quantity : Z)
    (purchase_date status location responsible_person notes : string) : M pyret :=
  raise_if (negb (forallb truthy
              [PStr name; PStr category; PStr purchase_date; PStr status; PStr location]))
    (ValueError RequiredMissing) ;;
  raise_if (quantity <? 0) (ValueError NegativeQuantity) ;;
  strptime (PStr purchase_date) ;;
  conn <- connect f ;;
  cur <- execute f conn
    "INSERT INTO inventory (name, category, quantity, purchase_date, status, location, responsible_person, notes) VALUES (?, ?, ?, ?, ?, ?, ?, ?)"
    [PStr name; PStr category; PInt quantity; PStr purchase_date;
     PStr status; PStr location; PStr responsible_person; PStr notes] ;;
  commit f (view cur) ;;
  print (Added name) ;;
  ret RNone.

Definition create_item
    (name category : string) (quantity : Z)
    (purchase_date status location responsible_person notes : string) : M pyret :=
  try_except
    (create_item_body name category quantity purchase_date status location
       responsible_person notes)
    except_value_or_db.

(** The body of [for key, value in filters.items()]. *)
Definition read_step (acc : list string * list pyval) (kv : string * string)
  : list string * list pyval :=
  let '(conditions, params) := acc in
  let '(key, value) := kv in
  if truthy (PStr value)
  then ((conditions ++ [(key ++ " LIKE ?")%string])%list,
        (params ++ [PStr ("%" ++ value ++ "%")])%list)
  else (conditions, params).

(** The text and the parameters that [read_items] assembles. *)
Definition read_query (filters : option (list (string * string))) : string * list pyval :=
  let query := "SELECT * FROM inventory" in
  let params := [] in
  let '(query, params) :=
    match filters with
    | Some ((_ :: _) as filters) =>
        let '(conditions, params) := fold_left read_step filters ([], params) in
        match conditions with
        | _ :: _ => (query ++ " WHERE " ++ String.concat " AND " conditions, params)
        | [] => (query, params)
        end
    | _ => (query, params)
    end in
  (query ++ " ORDER BY name", params).

Definition read_items_body (filters : option (list (string * string))) : M pyret :=
  conn <- connect f ;;
  let '(query, params) := read_query filters in
  cur <- execute f conn query params ;;
  ret (RRows (fetchall cur)).

Definition read_items (filters : option (list (string * string))) : M pyret :=
  try_except (read_items_body filters)
    (fun e =>
       match e with
       | SqliteError => Some (print ReadError ;; ret (RRows []))
       | _ => None
       end).

Definition valid_fields : list string :=
  ["name"; "category"; "quantity"; "purchase_date"; "status"; "location";
   "responsible_person"; "notes"].

Definition is_none (v : pyval) : bool :=
  match v with PNone => true | _ => false end.

(** The body of [for field, value in kwargs.items()]. *)
Definition update_step (acc : list string * list pyval) (kw : string * pyval)
  : M (list string * list pyval) :=
  let '(update_fields, params) := acc in
  let '(field, value) := kw in
  if existsb (String.eqb field) valid_fields && negb (is_none value) then
    (if (field =? "quantity")%string
     then negative <- lt_zero value ;; raise_if negative (ValueError NegativeQuantity)
     else ret tt) ;;
    (if (field =? "purchase_date")%string
     then strptime value ;; ret tt
     else ret tt) ;;
    ret ((update_fields ++ [(field ++ " = ?")%string])%list, (params ++ [value])%list)
  else ret (update_fields, params).

Definition update_item_body (item_id : Z) (kwargs : list (string * pyval)) : M pyret :=
  match kwargs with
  | [] => print NoData ;; ret RNone
  | _ :: _ =>
      ' (update_fields, params) <- for_each update_step kwargs ([], []) ;;
      match update_fields with
      | [] => print NoFields ;; ret RNone
      | _ :: _ =>
          let params := (params ++ [PInt item_id])%list in
          conn <- connect f ;;
          cur <- execute f conn
            ("UPDATE inventory SET " ++ String.concat ", " update_fields
               ++ " WHERE id = ?") params ;;
          (if rowcount cur =? 0
           then print (NotFound item_id)
           else print (Updated item_id)) ;;
          commit f (view cur) ;;
          ret RNone
      end
  end.

Definition update_item (item_id : Z) (kwargs : list (string * pyval)) : M pyret :=
  try_except (update_item_body item_id kwargs) except_value_or_db.

Definition delete_item_body (item_id : Z) : M pyret :=
  conn <- connect f ;;
  cur <- execute f conn "DELETE FROM inventory WHERE id = ?" [PInt item_id] ;;
  (if rowcount cur =? 0
   then print (NotFound item_id)
   else print (Deleted item_id)) ;;
  commit f (view cur) ;;
  ret RNone.

Definition delete_item (item_id : Z) : M pyret :=
  try_except (delete_item_body item_id)
    (fun e =>
       match e with
       | SqliteError => Some (print DeleteError ;; ret RNone)
       | _ => None
       end).

End Methods.

Definition fresh : world := mkWorld empty_db [].

(** ** Derived definitions

    What the loops of the methods compute, in closed form, and the
    checks and filters as the specification words them. *)

(** The order of the checks as the specification lists them: required
    fields, then the sign of the quantity, then the date. *)
Definition first_failure
    (name category : string) (quantity : Z) (purchase_date status location : string)
  : option value_error :=
  if (name =? "")%string || (category =? "")%string || (purchase_date =? "")%string
     || (status =? "")%string || (location =? "")%string
  then Some RequiredMissing
  else if quantity <? 0 then Some NegativeQuantity
  else match Datetime.strptime purchase_date with
       | None => Some BadDate
       | Some _ => None
       end.

(** An entry of [kwargs] that the loop of [update_item] takes up: a known
    field whose value is not [None]. *)
Definition recognized (kw : string * pyval) : bool :=
  existsb (String.eqb (fst kw)) valid_fields && negb (is_none (snd kw)).

Definition effective (kwargs : list (string * pyval)) : list (string * pyval) :=
  filter recognized kwargs.

(** What the loop raises at one entry, if anything. *)
Definition entry_error (kw : string * pyval) : option exn :=
  if recognized kw then
    if (fst kw =? "quantity")%string then
      match snd kw with
      | PInt n => if n <? 0 then Some (ValueError NegativeQuantity) else None
      | _ => Some TypeError
      end
    else if (fst kw =? "purchase_date")%string then
      match snd kw with
      | PStr s =>
          match Datetime.strptime s with
          | Some _ => None
          | None => Some (ValueError BadDate)
          end
      | _ => Some TypeError
      end
    else None
  else None.

(** The first entry, in the order of the mapping, at which the loop stops. *)
Fixpoint first_error (kwargs : list (string * pyval)) : option exn :=
  match kwargs with
  | [] => None
  | kw :: kwargs' =>
      match entry_error kw with
      | Some e => Some e
      | None => first_error kwargs'
      end
  end.

(** The [SET] items and their parameters for the entries taken up. *)
Definition set_items (kwargs : list (string * pyval)) : list string :=
  map (fun kw => (fst kw ++ " = ?")%string) (effective kwargs).

Definition set_params (kwargs : list (string * pyval)) : list pyval :=
  map snd (effective kwargs).

(** The text of a column list as the two methods lay it out. *)
Definition render (suffix sep : string) (cs : list column) : string :=
  String.concat sep (map (fun c => (column_name c ++ suffix)%string) cs).

(** The entries of a filter set that carry a pattern. *)
Definition applied (filters : list (string * string)) : list (string * string) :=
  filter (fun kv => truthy (PStr (snd kv))) filters.

(** A filter set over table columns, as the mapping [read_items] receives. *)
Definition keyed (cfilters : list (column * string)) : list (string * string) :=
  map (fun cv => (column_name (fst cv), snd cv)) cfilters.

(** A row passes a filter set: every entry with a non-empty pattern [v]
    holds as [column LIKE '%v%']. *)
Definition passes (cfilters : list (column * string)) (r : item) : bool :=
  forallb (fun cv => (snd cv =? "")%string
                     || Sqlite.like ("%" ++ snd cv ++ "%")
                          (Sqlite.text_of (fst cv) r))
    cfilters.

(** Names in ascending order. *)
Definition name_le (a b : item) : Prop := String.leb (name a) (name b) = true.


(** The table is stored in ascending id order. *)
Definition ascending (l : list item) : Prop :=
  StronglySorted (fun a b => id a < id b) l.

(** The entries of a filter set over columns that carry a pattern. *)
Definition nonempty (cfilters : list (column * string)) : list (column * string) :=
  filter (fun cv => negb (snd cv =? "")%string) cfilters.

(** The [LIKE] pattern that [read_items] makes of a filter value. *)
Definition pattern (v : string) : string := ("%" ++ v ++ "%")%string.



(** A small table for examples. *)
Definition desk : item :=
  mkItem 1 "Desk" "Furniture" 2 "2024-01-15" "in use" "Room 102" "" "".

Definition office : world := mkWorld (mkDb [desk] 1) [].

(** ** The effect of an update, column by column *)

(** The column that a field name of [valid_fields] stands for. *)
Definition field_column (field : string) : option column :=
  find (fun c => (column_name c =? field)%string) data_columns.

(** The columns of the [SET] items, in order. *)
Definition assigned (kwargs : list (string * pyval)) : list column :=
  flat_map (fun kw => match field_column (fst kw) with
                      | Some c => [c]
                      | None => []
                      end) (effective kwargs).

(** [update_item] after its loop. *)
Definition update_tail (f : fault) (item_id : Z)
    (update_fields : list string) (params : list pyval) : M pyret :=
  match update_fields with
  | [] => print NoFields ;; ret RNone
  | _ :: _ =>
      let params := (params ++ [PInt item_id])%list in
      conn <- connect f ;;
      cur <- execute f conn
        ("UPDATE inventory SET " ++ String.concat ", " update_fields
           ++ " WHERE id = ?") params ;;
      (if rowcount cur =? 0
       then print (NotFound item_id)
       else print (Updated item_id)) ;;
      commit f (view cur) ;;
      ret RNone
  end.

(** A column of a row, as Python reads it back. *)
Definition get_field (c : column) (r : item) : pyval :=
  match c with
  | Cid => PInt (id r)
  | Cname => PStr (name r)
  | Ccategory => PStr (category r)
  | Cquantity => PInt (quantity r)
  | Cpurchase_date => PStr (purchase_date r)
  | Cstatus => PStr (status r)
  | Clocation => PStr (location r)
  | Cresponsible_person => PStr (responsible_person r)
  | Cnotes => PStr (notes r)
  end.

(** What a column keeps of a supplied value: the value itself, except that
    a [TEXT] column keeps an [int] as its decimal text. *)
Definition stored (c : column) (v : pyval) : pyval :=
  match c, v with
  | Cquantity, _ => v
  | _, PInt n => PStr (str_of_int n)
  | _, _ => v
  end.

(** One [SET] item applied to a row. *)
Definition assign_entry (r : item) (kw : string * pyval) : item :=
  match field_column (fst kw) with
  | Some c =>
      match Sqlite.set_column c (snd kw) r with
      | Some r' => r'
      | None => r
      end
  | None => r
  end.

Fixpoint assign_entries (l : list (string * pyval)) (r : item) : item :=
  match l with
  | [] => r
  | kw :: l' => assign_entries l' (assign_entry r kw)
  end.

(** The row after the update. *)
Definition assign_all (kwargs : list (string * pyval)) (r : item) : item :=
  assign_entries (effective kwargs) r.

(** The value that the entries give to a column; the last one counts. *)
Fixpoint last_value (c : column) (l : list (string * pyval)) : option pyval :=
  match l with
  | [] => None
  | kw :: l' =>
      match last_value c l' with
      | Some v => Some v
      | None => if (fst kw =? column_name c)%string then Some (snd kw) else None
      end
  end.

Definition supplied (c : column) (kwargs : list (string * pyval)) : option pyval :=
  last_value c (effective kwargs).

(** The table after [UPDATE ... WHERE id = target]. *)
Definition updated_rows (kwargs : list (string * pyval)) (target : Z) (l : list item)
  : list item :=
  map (fun r => if id r =? target then assign_all kwargs r else r) l.

(** The number of rows with a given id. *)
Definition count_id (target : Z) (l : list item) : Z :=
  Z.of_nat (List.length (filter (fun r => id r =? target) l)).

(** The line that [update_item] prints after its statement ran. *)
Definition update_flag (item_id : Z) (l : list item) : message :=
  if count_id item_id l =? 0 then NotFound item_id else Updated item_id.

Definition say (w : world) (ms : list message) : world :=
  mkWorld (store w) (console w ++ ms).

(** The row that [create_item] inserts into the table [d]. *)
Definition created (d : db) (name category : string) (quantity : Z)
    (purchase_date status location responsible_person notes : string) : item :=
  mkItem (Sqlite.next_id d) name category quantity purchase_date status location
    responsible_person notes.

(** The table after [DELETE ... WHERE id = target], and the line printed. *)
Definition remaining (target : Z) (l : list item) : list item :=
  filter (fun r => negb (id r =? target)) l.

Definition delete_flag (item_id : Z) (l : list item) : message :=
  if count_id item_id l =? 0 then NotFound item_id else Deleted item_id.



(** ** Reachable states *)

(** A record as creation validates it. *)
Definition sound (r : item) : Prop :=
  0 <= quantity r /\ Datetime.strptime (purchase_date r) <> None.

Definition complete (r : item) : Prop :=
  name r <> ""%string /\ category r <> ""%string /\ purchase_date r <> ""%string
  /\ status r <> ""%string /\ location r <> ""%string.

Inductive call : Type :=
| Create (name category : string) (quantity : Z)
    (purchase_date status location responsible_person notes : string)
| Read (filters : option (list (string * string)))
| Change (item_id : Z) (kwargs : list (string * pyval))
| Remove (item_id : Z).

Definition run_call (f : fault) (c : call) : M pyret :=
  match c with
  | Create name category quantity purchase_date status location responsible_person notes =>
      create_item f name category quantity purchase_date status location
        responsible_person notes
  | Read filters => read_items f filters
  | Change item_id kwargs => update_item f item_id kwargs
  | Remove item_id => delete_item f item_id
  end.

(** The states that calls of the four methods lead to from a new file,
    whether or not the engine works at each call. *)
Inductive reachable : world -> Prop :=
| reach_fresh : reachable fresh
| reach_call (f : fault) (c : call) (w : world) :
    reachable w -> reachable (fst (run_call f c w)).

(** Ids are positive, distinct, in table order and never above the
    counter; quantities and dates are as validated. *)
Definition invariant (d : db) : Prop :=
  0 <= seq d
  /\ ascending (rows d)
  /\ Forall (fun r => 0 < id r <= seq d /\ sound r) (rows d).



(** * The rest of [main.py]: [init_db], [display_items] and the menu loop *)

(** ** [init_db] and the constructor *)

(** The database file is [None] while it has no [inventory] table.
    [CREATE TABLE IF NOT EXISTS] is data definition: it takes effect when
    it is executed, so the [conn.commit()] after it has nothing left to
    do.  [init_db] has no [except] clause: what the engine raises goes to
    the caller. *)
Definition table_of (file : option db) : db :=
  match file with
  | Some d => d
  | None => empty_db
  end.

Definition init_db (f : fault) (file : option db) : option db * result unit :=
  match f with
  | FailConnect | FailExecute => (file, Raised SqliteError)
  | _ => (Some (table_of file), Returned tt)
  end.

(** ** The screen *)

(** The prompts of [input(...)]. *)
Inductive prompt : Type :=
| AskChoice                       (** "Choose an action (1-6): " *)
| AskName | AskCategory | AskStatus | AskLocation
| AskQuantity
| AskDateYMD                      (** "Date (YYYY-MM-DD): ", when adding *)
| AskDate                         (** "Date: ", when editing *)
| AskResponsible | AskNotes
| AskEditId                       (** "ID to edit: " *)
| AskDeleteId                     (** "ID to delete: " *)
| AskConfirm (i : Z).             (** "Delete ID {item_id}? (y/N): " *)

(** Everything that is written to standard output, one constructor for
    each [print] or [input] of [display_items] and [main]; [Said] is a
    line of one of the four methods. *)
Inductive line : Type :=
| Said (m : message)
| NoRecords                       (** "No records found" *)
| TableTop                        (** an empty line and the rule of 100 [=] *)
| Header                          (** the column titles *)
| Rule                            (** the rule of 100 [=] *)
| RowLine (i : Z) (name category : string) (quantity : Z)
    (purchase_date status location responsible_person : string)
| Total (n : nat)                 (** "Total: {len(items)}" *)
| Menu (k : nat)                  (** the title ([0]) and the six entries *)
| Ask (p : prompt)
| SearchTitle | AddTitle | EditHint
| IntError                        (** "Error: {e}" for the [ValueError] of [int] *)
| BadFormat                       (** "Wrong format" *)
| BadId                           (** "Wrong ID" *)
| Bye                             (** "Exit!" *)
| BadChoice.                      (** "Wrong choice" *)

(** The columns [item[0]] to [item[7]] that a table line shows. *)
Definition row_line (r : item) : line :=
  RowLine (id r) (name r) (category r) (quantity r) (purchase_date r)
    (status r) (location r) (responsible_person r).

(** ** The program around the four methods *)

(** The table, the screen and the lines still to be read from standard
    input. *)
Record session : Type := mkSession {
  table : db;
  screen : list line;
  stdin : list string
}.

Inductive failure : Type :=
| EOFError                        (** [input] at the end of the input *)
| IntValueError                   (** the [ValueError] of [int] *)
| Method (e : exn).               (** raised by a method of the manager *)

Inductive outcome (A : Type) : Type :=
| Ok (a : A)
| Err (e : failure).
Arguments Ok {A} a.
Arguments Err {A} e.

Definition C (A : Type) : Type := session -> session * outcome A.

Definition pure {A : Type} (a : A) : C A := fun s => (s, Ok a).

Definition throw {A : Type} (e : failure) : C A := fun s => (s, Err e).

Definition and_then {A B : Type} (c : C A) (k : A -> C B) : C B :=
  fun s =>
    match c s with
    | (s', Ok a) => k a s'
    | (s', Err e) => (s', Err e)
    end.

Notation "x <~ c1 ;; c2" := (and_then c1 (fun x => c2))
  (at level 61, c1 at next level, right associativity).
Notation "c1 ;;; c2" := (and_then c1 (fun _ => c2))
  (at level 61, right associativity).

(** [print(...)] *)
Definition show (l : line) : C unit :=
  fun s => (mkSession (table s) (screen s ++ [l]) (stdin s), Ok tt).

Definition show_all (ls : list line) : C unit :=
  fun s => (mkSession (table s) (screen s ++ ls) (stdin s), Ok tt).

(** [input(prompt)]: the prompt is written, then a line is read. *)
Definition input (p : prompt) : C string :=
  fun s =>
    match stdin s with
    | [] => (mkSession (table s) (screen s ++ [Ask p]) [], Err EOFError)
    | l :: rest => (mkSession (table s) (screen s ++ [Ask p]) rest, Ok l)
    end.

(** A call of a method of the manager: it works on the table and its
    lines go to the screen. *)
Definition method (m : M pyret) : C pyret :=
  fun s =>
    match m (mkWorld (table s) []) with
    | (w, r) =>
        (mkSession (store w) (screen s ++ map Said (console w)) (stdin s),
         match r with
         | Returned v => Ok v
         | Raised e => Err (Method e)
         end)
    end.

(** [try: body  except ValueError: handler] *)
Definition except_value_error {A : Type} (body : C A) (handler : C A) : C A :=
  fun s =>
    match body s with
    | (s', Err IntValueError) => handler s'
    | (s', Err (Method (ValueError _))) => handler s'
    | r => r
    end.

(** *** [str.strip], [str.lower] and [int] *)

(** A line is the UTF-8 text that was typed.  White space, for
    [str.strip], is U+0009 to U+000D, U+001C to U+0020, U+0085, U+00A0,
    U+1680, U+2000 to U+200A, U+2028, U+2029, U+202F, U+205F and U+3000:
    one, two or three bytes. *)
Definition is_space (c : ascii) : bool :=
  let n := nat_of_ascii c in
  ((9 <=? n) && (n <=? 13) || (28 <=? n) && (n <=? 32))%nat.

Definition is_space2 (c1 c2 : ascii) : bool :=
  let a := nat_of_ascii c1 in
  let b := nat_of_ascii c2 in
  ((a =? 194) && ((b =? 133) || (b =? 160)))%nat.

Definition is_space3 (c1 c2 c3 : ascii) : bool :=
  let a := nat_of_ascii c1 in
  let b := nat_of_ascii c2 in
  let c := nat_of_ascii c3 in
  ((a =? 225) && (b =? 154) && (c =? 128)
   || (a =? 226) && (b =? 128)
      && ((128 <=? c) && (c <=? 138) || (c =? 168) || (c =? 169) || (c =? 175))
   || (a =? 226) && (b =? 129) && (c =? 159)
   || (a =? 227) && (b =? 128) && (c =? 128))%nat.

Fixpoint lstrip (s : string) : string :=
  match s with
  | String c1 s1 =>
      if is_space c1 then lstrip s1
      else
        match s1 with
        | String c2 s2 =>
            if is_space2 c1 c2 then lstrip s2
            else
              match s2 with
              | String c3 s3 => if is_space3 c1 c2 c3 then lstrip s3 else s
              | EmptyString => s
              end
        | EmptyString => s
        end
  | EmptyString => s
  end.

(** Nothing but white space. *)
Definition blank (s : string) : bool := (lstrip s =? "")%string.

Fixpoint rstrip (s : string) : string :=
  match s with
  | String c s' => if blank s then EmptyString else String c (rstrip s')
  | EmptyString => s
  end.

Definition strip (s : string) : string := rstrip (lstrip s).

(** [str.lower], on the letters A to Z.  The letters of other scripts are
    left as they are: the program compares the result with "y" only, and
    no letter but Y has y as its lower case. *)
Fixpoint lower (s : string) : string :=
  match s with
  | String c s' => String (Sqlite.lower c) (lower s')
  | EmptyString => s
  end.

(** Decimal digits with single underscores between them. *)
Fixpoint int_digits (s : string) (acc : Z) (after_digit : bool) : option Z :=
  match s with
  | EmptyString => if after_digit then Some acc else None
  | String c s' =>
      if Datetime.is_digit c then int_digits s' (10 * acc + Datetime.digit c) true
      else if Ascii.eqb c "_" && after_digit then int_digits s' acc false
      else None
  end.

(** [int(s)] for a stripped [s] of ASCII; [None] is its [ValueError]. *)
Definition int_of_string (s : string) : option Z :=
  match s with
  | String "-" s' => option_map Z.opp (int_digits s' 0 false)
  | String "+" s' => int_digits s' 0 false
  | _ => int_digits s 0 false
  end.

Fixpoint ascii_only (s : string) : bool :=
  match s with
  | String c s' => (nat_of_ascii c <? 128)%nat && ascii_only s'
  | EmptyString => true
  end.

(** The integers of the engine: 64 bits, signed. *)
Definition fits (n : Z) : bool := (- 2 ^ 63 <=? n) && (n <? 2 ^ 63).

(** What [int(s)] gives.  [int] also reads the digits of other scripts,
    recent versions of it refuse a text of more than 4300 digits, and an
    integer of more than 64 bits is refused by the engine with an
    [OverflowError] when a statement gets it.  The three are [Beyond]: they
    are left out where the text is read, and such a line ends the run of
    the model with [OutsideModel]. *)
Inductive reading : Type :=
| Integer (n : Z)
| Invalid            (** [ValueError] *)
| Beyond.

Definition read_int (s : string) : reading :=
  if ascii_only s && (String.length s <=? 4300)%nat then
    match int_of_string s with
    | Some n => if fits n then Integer n else Beyond
    | None => Invalid
    end
  else Beyond.

Definition int (s : string) : C Z :=
  match read_int s with
  | Integer n => pure n
  | Invalid => throw IntValueError
  | Beyond => throw (Method OutsideModel)
  end.

(** [value or None] *)
Definition or_none (s : string) : pyval :=
  if (s =? "")%string then PNone else PStr s.

(** *** [display_items] *)

Definition display_items (f : fault) (items : pyret) : C unit :=
  items <~ match items with
           | RNone => method (read_items f None)
           | _ => pure items
           end ;;
  match items with
  | RRows [] | RNone => show NoRecords
  | RRows l =>
      show TableTop ;;; show Header ;;; show Rule ;;;
      show_all (map row_line l) ;;;
      show Rule ;;; show (Total (List.length l))
  | RRow _ =>
      (* a row is a tuple of cells: [item[0]] of a cell fails *)
      show TableTop ;;; show Header ;;; show Rule ;;; throw (Method TypeError)
  end.

(** *** The branches of the menu *)

(** Choice 1. *)
Definition list_all (f : fault) : C unit :=
  items <~ method (read_items f None) ;;
  display_items f items.

(** Choice 2. *)
Definition search (f : fault) : C unit :=
  show SearchTitle ;;;
  name <~ input AskName ;;
  category <~ input AskCategory ;;
  status <~ input AskStatus ;;
  location <~ input AskLocation ;;
  let filters := [("name", strip name); ("category", strip category);
                  ("status", strip status); ("location", strip location)] in
  items <~ method (read_items f (Some filters)) ;;
  display_items f items.

(** Choice 3. *)
Definition add (f : fault) : C unit :=
  show AddTitle ;;;
  except_value_error
    (name <~ input AskName ;;
     category <~ input AskCategory ;;
     quantity <~ input AskQuantity ;;
     quantity <~ int (strip quantity) ;;
     purchase_date <~ input AskDateYMD ;;
     status <~ input AskStatus ;;
     location <~ input AskLocation ;;
     responsible_person <~ input AskResponsible ;;
     notes <~ input AskNotes ;;
     method (create_item f (strip name) (strip category) quantity (strip purchase_date)
               (strip status) (strip location) (strip responsible_person)
               (strip notes)) ;;;
     pure tt)
    (show IntError).

(** Choice 4. *)
Definition edit (f : fault) : C unit :=
  except_value_error
    (item_id <~ input AskEditId ;;
     item_id <~ int (strip item_id) ;;
     show EditHint ;;;
     name <~ input AskName ;;
     category <~ input AskCategory ;;
     quantity_input <~ input AskQuantity ;;
     quantity <~ (if (strip quantity_input =? "")%string then pure PNone
                  else n <~ int (strip quantity_input) ;; pure (PInt n)) ;;
     purchase_date <~ input AskDate ;;
     status <~ input AskStatus ;;
     location <~ input AskLocation ;;
     responsible_person <~ input AskResponsible ;;
     notes <~ input AskNotes ;;
     let update_data :=
       [("name", or_none (strip name)); ("category", or_none (strip category));
        ("quantity", quantity); ("purchase_date", or_none (strip purchase_date));
        ("status", or_none (strip status)); ("location", or_none (strip location));
        ("responsible_person", or_none (strip responsible_person));
        ("notes", or_none (strip notes))] in
     let update_data := filter (fun kv => negb (is_none (snd kv))) update_data in
     method (update_item f item_id update_data) ;;;
     pure tt)
    (show BadFormat).

(** Choice 5. *)
Definition remove (f : fault) : C unit :=
  except_value_error
    (item_id <~ input AskDeleteId ;;
     item_id <~ int (strip item_id) ;;
     confirm <~ input (AskConfirm item_id) ;;
     if (lower (strip confirm) =? "y")%string
     then method (delete_item f item_id) ;;; pure tt
     else pure tt)
    (show BadId).

Definition menu : list line := map Menu (List.seq 0 7).

(** One turn of [while True]; [true] stands for [break]. *)
Definition turn (f : fault) : C bool :=
  show_all menu ;;;
  choice <~ input AskChoice ;;
  let choice := strip choice in
  if (choice =? "1")%string then list_all f ;;; pure false
  else if (choice =? "2")%string then search f ;;; pure false
  else if (choice =? "3")%string then add f ;;; pure false
  else if (choice =? "4")%string then edit f ;;; pure false
  else if (choice =? "5")%string then remove f ;;; pure false
  else if (choice =? "6")%string then show Bye ;;; pure true
  else show BadChoice ;;; pure false.

(** The loop.  [faults] tells how the engine is in each turn (working,
    once the list is used up).  A turn that goes on has read a line, so
    [fuel] equal to the number of input lines is never used up. *)
Fixpoint main_loop (fuel : nat) (faults : list fault) : C unit :=
  stop <~ turn (hd NoFault faults) ;;
  if stop then pure tt
  else match fuel with
       | O => throw EOFError
       | S fuel' => main_loop fuel' (tl faults)
       end.

(** [main()]: the constructor runs [init_db], then the loop runs on what
    is typed. *)
Definition main (init_fault : fault) (faults : list fault)
    (file : option db) (typed : list string)
  : option db * list line * outcome unit :=
  match init_db init_fault file with
  | (file', Raised e) => (file', [], Err (Method e))
  | (file', Returned _) =>
      match main_loop (List.length typed) faults (mkSession (table_of file') [] typed) with
      | (s, r) => (Some (table s), screen s, r)
      end
  end.

(** ** Sequences of calls *)

(** [later w w']: calls of the four methods lead from [w] to [w'],
    whether or not the engine works at each of them. *)
Inductive later (w : world) : world -> Prop :=
| later_now : later w w
| later_call (f : fault) (c : call) (w' : world) :
    later w w' -> later w (fst (run_call f c w')).

(** Two states for examples: a record created and deleted again, and a
    second record created after that. *)
Definition emptied : world :=
  fst (run_call NoFault (Remove 1)
         (fst (run_call NoFault
                 (Create "Desk" "Furniture" 2 "2024-01-15" "in use" "Room 102" "" "")
                 fresh))).

Definition relit : world :=
  fst (run_call NoFault
         (Create "Lamp" "Lighting" 1 "2024-02-01" "in use" "Room 102" "" "") emptied).

(** ** What the menu can do to the table *)

(** Every record has its required fields, besides the invariant. *)
Definition good (d : db) : Prop := invariant d /\ Forall complete (rows d).

(** An entry as the edit dialog makes it: a non-empty string, or an
    integer for the quantity. *)
Definition menu_entry (kw : string * pyval) : Prop :=
  match snd kw with
  | PStr s => s <> ""%string
  | PInt _ => fst kw = "quantity"%string
  | PNone => False
  end.

(** The calls that the branches of the menu make. *)
Definition menu_call (c : call) : Prop :=
  match c with
  | Change _ kwargs => Forall menu_entry kwargs
  | Read (Some filters) => map fst filters = ["name"; "category"; "status"; "location"]
  | _ => True
  end.

Inductive menu_reach (d : db) : db -> Prop :=
| menu_reach_refl : menu_reach d d
| menu_reach_call (f : fault) (c : call) (d' : db) :
    menu_reach d d' -> menu_call c ->
    menu_reach d (store (fst (run_call f c (mkWorld d' [])))).

(** From one session to a later one: the table changes by calls of the
    menu only, and the input is read from the front. *)
Definition follows (s s' : session) : Prop :=
  menu_reach (table s) (table s')
  /\ exists eaten, stdin s = (eaten ++ stdin s')%list.

Definition spec {A : Type} (c : C A) (Q : A -> Prop) : Prop :=
  forall s, follows s (fst (c s)) /\ forall a, snd (c s) = Ok a -> Q a.

Definition any {A : Type} (a : A) : Prop := True.

(** The lines of a table of rows, as [display_items] prints them. *)
Definition table_lines (l : list item) : list line :=
  match l with
  | [] => [NoRecords]
  | _ :: _ =>
      ([TableTop; Header; Rule] ++ map row_line l ++ [Rule; Total (List.length l)])%list
  end.

(** What [turn] does with the choice it has read. *)
Definition dispatch (f : fault) (choice : string) : C bool :=
  if (choice =? "1")%string then list_all f ;;; pure false
  else if (choice =? "2")%string then search f ;;; pure false
  else if (choice =? "3")%string then add f ;;; pure false
  else if (choice =? "4")%string then edit f ;;; pure false
  else if (choice =? "5")%string then remove f ;;; pure false
  else if (choice =? "6")%string then show Bye ;;; pure true
  else show BadChoice ;;; pure false.

(** A computation that does not end with [sqlite3.Error]. *)
Definition calm {A : Type} (c : C A) : Prop :=
  forall s, snd (c s) <> Err (Method SqliteError).

(** * The reach of the model, and the words of the specification *)

(** ** What a statement takes *)

(** A [str] is modelled by its UTF-8 encoding.  A byte string that is not
    UTF-8 stands for a [str] with lone surrogates (what standard input
    makes of such bytes); binding it to a statement raises
    [UnicodeEncodeError], a [ValueError], and no statement runs. *)
Definition trail (c : ascii) (lo hi : nat) : bool :=
  ((lo <=? nat_of_ascii c) && (nat_of_ascii c <=? hi))%nat.

Fixpoint utf8 (s : string) : bool :=
  match s with
  | EmptyString => true
  | String c1 s1 =>
      let a := nat_of_ascii c1 in
      if (a <? 128)%nat then utf8 s1
      else
        match s1 with
        | EmptyString => false
        | String c2 s2 =>
            if ((194 <=? a) && (a <=? 223))%nat then trail c2 128 191 && utf8 s2
            else
              match s2 with
              | EmptyString => false
              | String c3 s3 =>
                  if ((224 <=? a) && (a <=? 239))%nat then
                    trail c2 (if (a =? 224)%nat then 160 else 128)
                             (if (a =? 237)%nat then 159 else 191)
                    && trail c3 128 191 && utf8 s3
                  else
                    match s3 with
                    | EmptyString => false
                    | String c4 s4 =>
                        ((240 <=? a) && (a <=? 244))%nat
                        && trail c2 (if (a =? 240)%nat then 144 else 128)
                                    (if (a =? 244)%nat then 143 else 191)
                        && trail c3 128 191 && trail c4 128 191 && utf8 s4
                    end
              end
        end
  end.

(** A value that binds to a [?]: text, or an integer of the engine's 64
    bits (for another one the bind raises [OverflowError] and no
    statement runs). *)
Definition binds (v : pyval) : bool :=
  match v with
  | PNone => true
  | PInt n => fits n
  | PStr s => utf8 s
  end.

(** The arguments of [create_item] that the [INSERT] takes, on the table
    [d]: they bind, and the id to come is still an integer of the engine
    (beyond it [AUTOINCREMENT] gives no id). *)
Definition storable (d : db) (quantity : Z) (texts : list string) : bool :=
  fits quantity && fits (Sqlite.next_id d) && forallb utf8 texts.

(** ** What [LIKE] reads *)

(** The engine reads pattern and text up to their first U+0000, and
    refuses a pattern of more than 50000 bytes; [Sqlite.like] reads every
    byte.  The two agree on text without U+0000 and on patterns within
    the limit. *)
Fixpoint no_nul (s : string) : bool :=
  match s with
  | EmptyString => true
  | String c s' => negb (nat_of_ascii c =? 0)%nat && no_nul s'
  end.

(** A filter value [v] whose pattern ['%v%'] the engine reads as the
    model does. *)
Definition searchable (v : string) : bool :=
  utf8 v && no_nul v && (Z.of_nat (String.length v) + 2 <=? 50000).

(** A row whose text columns the engine's [LIKE] reads in full. *)
Definition legible (r : item) : bool :=
  forallb no_nul [name r; category r; purchase_date r; status r; location r;
                  responsible_person r; notes r].

(** ** The date, in the words of the specification *)

(** The fixed format [YYYY-MM-DD]: four digits, two digits and two digits
    with [-] between them, naming a day of the calendar. *)
Definition fixed_format (s : string) : bool :=
  match s with
  | String y1 (String y2 (String y3 (String y4 (String dash1
      (String m1 (String m2 (String dash2
         (String d1 (String d2 EmptyString))))))))) =>
      let y := 1000 * Datetime.digit y1 + 100 * Datetime.digit y2
               + 10 * Datetime.digit y3 + Datetime.digit y4 in
      let m := 10 * Datetime.digit m1 + Datetime.digit m2 in
      let d := 10 * Datetime.digit d1 + Datetime.digit d2 in
      forallb Datetime.is_digit [y1; y2; y3; y4; m1; m2; d1; d2]
      && Ascii.eqb dash1 "-" && Ascii.eqb dash2 "-"
      && (1 <=? y) && (1 <=? m) && (m <=? 12)
      && (1 <=? d) && (d <=? Datetime.days_in_month y m)
  | _ => false
  end.

(** The checks of a create as the specification lists them. *)
Definition specified_failure
    (name category : string) (quantity : Z) (purchase_date status location : string)
  : option value_error :=
  if (name =? "")%string || (category =? "")%string || (purchase_date =? "")%string
     || (status =? "")%string || (location =? "")%string
  then Some RequiredMissing
  else if quantity <? 0 then Some NegativeQuantity
  else if fixed_format purchase_date then None
  else Some BadDate.

(** A supplied field that fails the validation of the specification: a
    negative quantity, or a purchase date that is not in the fixed
    format. *)
Definition off_format (kw : string * pyval) : Prop :=
  (exists n, kw = ("quantity", PInt n) /\ n < 0)
  \/ (exists s, kw = ("purchase_date", PStr s) /\ fixed_format s = false).

(** [strptime] is modelled on ASCII: its [\d] also matches the decimal
    digits of other scripts.  An entry whose date, if it has one, is
    ASCII. *)
Definition dated (kw : string * pyval) : Prop :=
  forall s, kw = ("purchase_date", PStr s) -> ascii_only s = true.

(** * Properties *)

(** ** The date parser on examples *)

Example strptime_plain : Datetime.strptime "2024-01-15" = Some (Datetime.mkDate 2024 1 15).
Proof. reflexivity. Qed.

Example strptime_unpadded : Datetime.strptime "2024-1-5" = Some (Datetime.mkDate 2024 1 5).
Proof. reflexivity. Qed.

Example strptime_bad_month : Datetime.strptime "2024-13-40" = None.
Proof. reflexivity. Qed.

Example strptime_wrong_order : Datetime.strptime "01-01-2024" = None.
Proof. reflexivity. Qed.

Example strptime_no_such_day : Datetime.strptime "2023-02-29" = None.
Proof. reflexivity. Qed.

(** ** Validation in [create_item] *)

Lemma all_required_truthy (a b c d e : string) :
  forallb truthy [PStr a; PStr b; PStr c; PStr d; PStr e]
  = negb ((a =? "")%string || (b =? "")%string || (c =? "")%string
          || (d =? "")%string || (e =? "")%string).
Proof.
  simpl.
  destruct (a =? "")%string, (b =? "")%string, (c =? "")%string,
    (d =? "")%string, (e =? "")%string; reflexivity.
Qed.



(** ** The loop of [update_item] *)

Lemma update_step_eq (acc : list string * list pyval) (kw : string * pyval) (w : world) :
  update_step acc kw w =
  match entry_error kw with
  | Some e => (w, Raised e)
  | None =>
      (w, Returned (if recognized kw
                    then ((fst acc ++ [(fst kw ++ " = ?")%string])%list,
                          (snd acc ++ [snd kw])%list)
                    else acc))
  end.
Proof.
  destruct acc as [fields params], kw as [field value].
  unfold update_step, entry_error, recognized; simpl fst; simpl snd.
  destruct (existsb (String.eqb field) valid_fields && negb (is_none value));
    [|reflexivity].
  destruct (String.eqb_spec field "quantity") as [->|Hq].
  - simpl. destruct value as [|n|s]; try reflexivity.
    unfold bind, lt_zero, ret, raise_if. destruct (n <? 0); reflexivity.
  - destruct (String.eqb_spec field "purchase_date") as [->|Hd].
    + destruct value as [|n|s]; try reflexivity.
      unfold bind, strptime, ret; simpl.
      destruct (Datetime.strptime s); reflexivity.
    + reflexivity.
Qed.

Lemma for_each_update_eq (kwargs : list (string * pyval)) :
  forall (fields : list string) (params : list pyval) (w : world),
    for_each update_step kwargs (fields, params) w =
    match first_error kwargs with
    | Some e => (w, Raised e)
    | None => (w, Returned ((fields ++ set_items kwargs)%list,
                            (params ++ set_params kwargs)%list))
    end.
Proof.
  unfold set_items, set_params, effective.
  induction kwargs as [|kw kwargs IH]; intros fields params w;
    cbn [for_each first_error filter map].
  - now rewrite !app_nil_r.
  - unfold bind at 1. rewrite update_step_eq.
    destruct (entry_error kw); [reflexivity|].
    destruct (recognized kw); cbn [fst snd map]; rewrite IH.
    + destruct (first_error kwargs); [reflexivity|].
      now rewrite <- !app_assoc.
    + reflexivity.
Qed.

(** ** Reading back the assembled statements *)

Lemma append_assoc (a b c : string) : ((a ++ b) ++ c)%string = (a ++ b ++ c)%string.
Proof. induction a as [|x a IH]; simpl; [reflexivity | now rewrite IH]. Qed.

Lemma append_length (a b : string) :
  String.length (a ++ b) = (String.length a + String.length b)%nat.
Proof. induction a as [|x a IH]; simpl; [reflexivity | now rewrite IH]. Qed.

Lemma strip_prefix_app (p s : string) : Sqlite.strip_prefix p (p ++ s) = Some s.
Proof.
  induction p as [|x p IH]; simpl; [reflexivity|].
  now rewrite Ascii.eqb_refl.
Qed.

Section ColumnList.

Variables (cols : list column) (suffix sep close : string).

Hypothesis column_first : forall (c : column) (rest : string),
  In c cols ->
  Sqlite.parse_column cols suffix (column_name c ++ suffix ++ rest) = Some (c, rest).

Hypothesis sep_not_close : forall rest : string, ((sep ++ rest) =? close)%string = false.

Lemma parse_list_render (cs : list column) :
  forall fuel : nat,
    cs <> [] -> Forall (fun c => In c cols) cs -> (List.length cs <= fuel)%nat ->
    Sqlite.parse_list fuel cols suffix sep close (render suffix sep cs ++ close)
    = Some cs.
Proof.
  unfold render.
  induction cs as [|c cs IH]; intros fuel Hne Hin Hfuel; [congruence|].
  inversion Hin as [|c0 cs0 Hc Hcs]; subst.
  destruct fuel as [|fuel]; [simpl in Hfuel; lia|].
  destruct cs as [|c' cs].
  - cbn [map String.concat Sqlite.parse_list].
    rewrite append_assoc, column_first by assumption.
    now rewrite String.eqb_refl.
  - change (String.concat sep (map (fun c1 => (column_name c1 ++ suffix)%string)
                                 (c :: c' :: cs)))
      with ((column_name c ++ suffix) ++ sep
            ++ String.concat sep (map (fun c1 => (column_name c1 ++ suffix)%string)
                                    (c' :: cs)))%string.
    cbn [Sqlite.parse_list].
    rewrite !append_assoc, column_first by assumption.
    rewrite sep_not_close, strip_prefix_app.
    rewrite IH; [reflexivity | congruence | assumption | simpl in *; lia].
Qed.

End ColumnList.

Lemma column_name_length (c : column) : (1 <= String.length (column_name c))%nat.
Proof. destruct c; simpl; lia. Qed.

Lemma render_length (suffix sep : string) (cs : list column) :
  (List.length cs <= String.length (render suffix sep cs))%nat.
Proof.
  unfold render.
  induction cs as [|c cs IH]; [simpl; lia|].
  destruct cs as [|c' cs].
  - cbn [map String.concat List.length]. rewrite append_length.
    pose proof (column_name_length c). lia.
  - change (String.concat sep (map (fun c1 => (column_name c1 ++ suffix)%string)
                                 (c :: c' :: cs)))
      with ((column_name c ++ suffix) ++ sep
            ++ String.concat sep (map (fun c1 => (column_name c1 ++ suffix)%string)
                                    (c' :: cs)))%string.
    rewrite !append_length. pose proof (column_name_length c).
    cbn [List.length] in *. lia.
Qed.

Lemma parse_column_set (c : column) (rest : string) :
  In c data_columns ->
  Sqlite.parse_column data_columns " = ?" (column_name c ++ " = ?" ++ rest)
  = Some (c, rest).
Proof.
  destruct c; intros H; try reflexivity.
  simpl in H; intuition discriminate.
Qed.

Lemma parse_column_like (c : column) (rest : string) :
  In c all_columns ->
  Sqlite.parse_column all_columns " LIKE ?" (column_name c ++ " LIKE ?" ++ rest)
  = Some (c, rest).
Proof. destruct c; intros _; reflexivity. Qed.

(** The text that [update_item] sends is read back as the assignment of
    its columns, in order. *)
Lemma parse_update (cs : list column) :
  cs <> [] -> Forall (fun c => In c data_columns) cs ->
  Sqlite.parse ("UPDATE inventory SET " ++ render " = ?" ", " cs ++ " WHERE id = ?")
  = Some (Sqlite.Update cs).
Proof.
  intros Hne Hin. unfold Sqlite.parse.
  change (("UPDATE inventory SET " ++ render " = ?" ", " cs ++ " WHERE id = ?")
          =? Sqlite.insert_sql)%string with false.
  change (("UPDATE inventory SET " ++ render " = ?" ", " cs ++ " WHERE id = ?")
          =? Sqlite.delete_sql)%string with false.
  change (Sqlite.strip_prefix "SELECT * FROM inventory"
            ("UPDATE inventory SET " ++ render " = ?" ", " cs ++ " WHERE id = ?"))
    with (@None string).
  cbv iota.
  rewrite strip_prefix_app.
  rewrite (parse_list_render data_columns " = ?" ", " " WHERE id = ?"
             parse_column_set (fun rest => eq_refl)); auto.
  rewrite append_length. pose proof (render_length " = ?" ", " cs). lia.
Qed.

(** The text that [read_items] sends for conditions on table columns. *)
Lemma parse_select (cs : list column) :
  cs <> [] ->
  Sqlite.parse ("SELECT * FROM inventory" ++ " WHERE " ++ render " LIKE ?" " AND " cs
                  ++ " ORDER BY name")
  = Some (Sqlite.Select cs).
Proof.
  intros Hne. unfold Sqlite.parse.
  set (conds := (render " LIKE ?" " AND " cs ++ " ORDER BY name")%string).
  change (("SELECT * FROM inventory" ++ " WHERE " ++ conds) =? Sqlite.insert_sql)%string
    with false.
  change (("SELECT * FROM inventory" ++ " WHERE " ++ conds) =? Sqlite.delete_sql)%string
    with false.
  cbv iota.
  rewrite strip_prefix_app.
  change ((" WHERE " ++ conds) =? " ORDER BY name")%string with false.
  cbv iota.
  rewrite strip_prefix_app. unfold conds.
  rewrite (parse_list_render all_columns " LIKE ?" " AND " " ORDER BY name"
             parse_column_like (fun rest => eq_refl)); auto.
  - apply Forall_forall. intros c _. destruct c; simpl; tauto.
  - rewrite append_length. pose proof (render_length " LIKE ?" " AND " cs). lia.
Qed.

Lemma parse_select_all :
  Sqlite.parse ("SELECT * FROM inventory" ++ " ORDER BY name") = Some (Sqlite.Select []).
Proof. reflexivity. Qed.

(** ** [ORDER BY name] sorts, and keeps the table order among equal names *)

Lemma ascii_compare_refl (a : ascii) : Ascii.compare a a = Eq.
Proof. unfold Ascii.compare. apply N.compare_refl. Qed.

Lemma ascii_compare_lt_trans (a b c : ascii) :
  Ascii.compare a b = Lt -> Ascii.compare b c = Lt -> Ascii.compare a c = Lt.
Proof.
  unfold Ascii.compare. rewrite !N.compare_lt_iff. apply N.lt_trans.
Qed.

Lemma string_compare_refl (s : string) : String.compare s s = Eq.
Proof.
  induction s as [|a s IH]; simpl; [reflexivity|].
  now rewrite ascii_compare_refl.
Qed.

Lemma string_compare_lt_trans (s1 : string) :
  forall s2 s3 : string,
    String.compare s1 s2 = Lt -> String.compare s2 s3 = Lt -> String.compare s1 s3 = Lt.
Proof.
  induction s1 as [|a s1 IH]; intros [|b s2] [|c s3]; simpl; try congruence.
  destruct (Ascii.compare a b) eqn:Eab; try discriminate;
    destruct (Ascii.compare b c) eqn:Ebc; try discriminate; intros H1 H2.
  - apply Ascii.compare_eq_iff in Eab, Ebc. subst.
    rewrite ascii_compare_refl. eauto.
  - apply Ascii.compare_eq_iff in Eab. subst. now rewrite Ebc.
  - apply Ascii.compare_eq_iff in Ebc. subst. now rewrite Eab.
  - now rewrite (ascii_compare_lt_trans a b c).
Qed.

Lemma leb_compare (s1 s2 : string) :
  String.leb s1 s2 = true <-> String.compare s1 s2 = Lt \/ s1 = s2.
Proof.
  unfold String.leb. split.
  - destruct (String.compare s1 s2) eqn:E; try discriminate; intros _.
    + right. now apply String.compare_eq_iff.
    + now left.
  - intros [-> | ->]; [reflexivity|]. now rewrite string_compare_refl.
Qed.

Lemma leb_false_compare (s1 s2 : string) :
  String.leb s1 s2 = false -> String.compare s2 s1 = Lt.
Proof.
  unfold String.leb. rewrite (String.compare_antisym s2 s1).
  destruct (String.compare s1 s2); simpl; congruence.
Qed.

Lemma leb_trans (s1 s2 s3 : string) :
  String.leb s1 s2 = true -> String.leb s2 s3 = true -> String.leb s1 s3 = true.
Proof.
  rewrite !leb_compare. intros [H1 | ->] [H2 | ->]; auto.
  left. eapply string_compare_lt_trans; eauto.
Qed.

Lemma in_insert_by_name (r y : item) (l : list item) :
  In y (Sqlite.insert_by_name r l) <-> y = r \/ In y l.
Proof.
  induction l as [|x l IH]; simpl.
  - intuition.
  - destruct (String.leb (name r) (name x)); simpl; rewrite ?IH; intuition.
Qed.



Lemma insert_by_name_sorted (r : item) (l : list item) :
  StronglySorted name_le l -> StronglySorted name_le (Sqlite.insert_by_name r l).
Proof.
  induction 1 as [|x l Hs IH Hx]; simpl.
  - repeat constructor.
  - destruct (String.leb (name r) (name x)) eqn:E.
    + constructor; [now constructor|].
      constructor; [exact E|].
      eapply Forall_impl; [|exact Hx]. intros y Hy. eapply leb_trans; eauto.
    + constructor; [exact IH|].
      apply Forall_forall. intros y Hy. apply in_insert_by_name in Hy.
      destruct Hy as [-> | Hy].
      * apply leb_compare. left. now apply leb_false_compare.
      * rewrite Forall_forall in Hx. now apply Hx.
Qed.

Lemma order_by_name_sorted (l : list item) :
  StronglySorted name_le (Sqlite.order_by_name l).
Proof.
  induction l as [|x l IH]; simpl; [constructor|].
  now apply insert_by_name_sorted.
Qed.



Lemma ascending_filter (p : item -> bool) (l : list item) :
  ascending l -> ascending (filter p l).
Proof.
  unfold ascending. induction 1 as [|x l Hs IH Hx]; simpl; [constructor|].
  destruct (p x); [|exact IH].
  constructor; [exact IH|].
  apply Forall_forall. intros y Hy. apply filter_In in Hy.
  rewrite Forall_forall in Hx. now apply Hx.
Qed.


(** ** What [read_items] sends and gets back *)

Lemma read_step_fold (filters : list (string * string)) :
  forall (conditions : list string) (params : list pyval),
    fold_left read_step filters (conditions, params)
    = ((conditions ++ map (fun kv => (fst kv ++ " LIKE ?")%string) (applied filters))%list,
       (params ++ map (fun kv => PStr (pattern (snd kv))) (applied filters))%list).
Proof.
  unfold applied.
  induction filters as [|[key value] filters IH]; intros conditions params;
    cbn [fold_left filter map fst snd].
  - now rewrite !app_nil_r.
  - unfold read_step at 2.
    destruct (truthy (PStr value)); rewrite IH; [|reflexivity].
    cbn [map fst snd]. now rewrite <- !app_assoc.
Qed.

Lemma applied_keyed (cfilters : list (column * string)) :
  applied (keyed cfilters) = keyed (nonempty cfilters).
Proof.
  unfold applied, keyed, nonempty.
  induction cfilters as [|[c v] cfilters IH]; [reflexivity|].
  cbn [map filter fst snd truthy].
  destruct (negb (v =? "")%string); cbn [map fst snd]; now rewrite <- IH.
Qed.

Lemma read_query_keyed (cfilters : list (column * string)) :
  read_query (Some (keyed cfilters))
  = match nonempty cfilters with
    | [] => (("SELECT * FROM inventory" ++ " ORDER BY name")%string, [])
    | _ :: _ =>
        (("SELECT * FROM inventory" ++ " WHERE "
            ++ render " LIKE ?" " AND " (map fst (nonempty cfilters))
            ++ " ORDER BY name")%string,
         map (fun cv => PStr (pattern (snd cv))) (nonempty cfilters))
    end.
Proof.
  unfold read_query.
  destruct cfilters as [|cv cfilters]; [reflexivity|].
  cbn [keyed map]. fold (keyed cfilters).
  change ((column_name (fst cv), snd cv) :: keyed cfilters) with (keyed (cv :: cfilters)).
  rewrite read_step_fold, applied_keyed. cbn [app].
  destruct (nonempty (cv :: cfilters)) as [|cv' l]; [reflexivity|].
  unfold keyed, render. rewrite !map_map. cbn [fst snd].
  set (conds := map _ (cv' :: l)).
  assert (E : exists x xs, conds = x :: xs) by (unfold conds; simpl; eauto).
  destruct E as (x & xs & E). rewrite E.
  now rewrite !append_assoc.
Qed.

Lemma patterns_of_strings {A : Type} (g : A -> string) (l : list A) :
  Sqlite.patterns_of (map (fun a => PStr (g a)) l) = Some (map g l).
Proof.
  induction l as [|a l IH]; simpl; [reflexivity | now rewrite IH].
Qed.

Lemma combine_maps {A B C : Type} (g : A -> B) (h : A -> C) (l : list A) :
  combine (map g l) (map h l) = map (fun a => (g a, h a)) l.
Proof.
  induction l as [|a l IH]; simpl; [reflexivity | now rewrite IH].
Qed.

Lemma passes_nonempty (cfilters : list (column * string)) (r : item) :
  Sqlite.matches (map (fun cv => (fst cv, pattern (snd cv))) (nonempty cfilters)) r
  = passes cfilters r.
Proof.
  unfold Sqlite.matches, passes, nonempty, pattern.
  induction cfilters as [|[c v] cfilters IH]; cbn [filter map forallb fst snd];
    [reflexivity|].
  destruct (v =? "")%string; cbn [negb orb map forallb fst snd]; now rewrite IH.
Qed.

Lemma filter_passes (cfilters : list (column * string)) (l : list item) :
  filter (Sqlite.matches (map (fun cv => (fst cv, pattern (snd cv))) (nonempty cfilters))) l
  = filter (passes cfilters) l.
Proof. apply filter_ext. intros r. apply passes_nonempty. Qed.

(** With a working engine, [read_items] over a filter set on table columns
    returns the rows that pass it, ordered by name. *)
Lemma read_items_keyed (cfilters : list (column * string)) (w : world) :
  read_items NoFault (Some (keyed cfilters)) w
  = (w, Returned (RRows (Sqlite.order_by_name
                           (filter (passes cfilters) (rows (store w)))))).
Proof.
  unfold read_items, try_except, read_items_body, bind, connect.
  rewrite read_query_keyed, <- filter_passes.
  unfold execute, Sqlite.execute.
  destruct (nonempty cfilters) as [|cv l] eqn:E.
  - rewrite parse_select_all. reflexivity.
  - rewrite parse_select by (simpl; congruence).
    unfold Sqlite.run. rewrite !length_map, Nat.eqb_refl. cbn [negb].
    rewrite patterns_of_strings, combine_maps. reflexivity.
Qed.

Lemma filter_matches_nil (l : list item) : filter (Sqlite.matches []) l = l.
Proof. induction l as [|r l IH]; simpl; [reflexivity | now rewrite IH]. Qed.

Lemma read_items_none (w : world) :
  read_items NoFault None w
  = (w, Returned (RRows (Sqlite.order_by_name (rows (store w))))).
Proof.
  transitivity
    (w, Returned (RRows (Sqlite.order_by_name
                           (filter (Sqlite.matches []) (rows (store w)))))).
  - reflexivity.
  - now rewrite filter_matches_nil.
Qed.

(** ** [LIKE '%v%'] and substrings *)










(** ** Queries *)




(** C8: the key of a filter entry goes into the statement text as it is,
    whatever it is.  (In [update_item] the same position is guarded by
    [valid_fields].) *)
Theorem read_query_takes_any_key (key value : string) :
  value <> ""%string ->
  read_query (Some [(key, value)])
  = (("SELECT * FROM inventory" ++ " WHERE " ++ (key ++ " LIKE ?") ++ " ORDER BY name")%string,
     [PStr ("%" ++ value ++ "%")]).
Proof.
  intros Hv. unfold read_query. cbn [fold_left read_step].
  unfold truthy. destruct (String.eqb_spec value ""); [contradiction|].
  cbn [negb app String.concat]. now rewrite !append_assoc.
Qed.

Lemma read_query_takes_any_key_witness :
  "x" <> ""%string
  /\ read_query (Some [("1=1 OR name", "x")])
     = ("SELECT * FROM inventory WHERE 1=1 OR name LIKE ? ORDER BY name", [PStr "%x%"]).
Proof.
  split; [discriminate|].
  apply (read_query_takes_any_key "1=1 OR name" "x"). discriminate.
Defined.

(** ** Failures of the engine *)

Ltac case_step :=
  match goal with
  | |- context [read_query ?x] => destruct (read_query x)
  | |- context [Datetime.strptime ?s] => destruct (Datetime.strptime s)
  | |- context [Sqlite.execute ?d ?q ?p] => destruct (Sqlite.execute d q p)
  | |- context [match ?f with NoFault => _ | _ => _ end] => destruct f
  | |- context [if ?b then _ else _] => destruct b
  | |- context [match ?o with Some _ => _ | None => _ end] => destruct o
  | |- context [match ?l with [] => _ | _ :: _ => _ end] => destruct l
  end.

Ltac case_match := case_step; cbv beta iota.

Ltac raised :=
  let H := fresh in
  intros H; inversion H; subst; clear H.

(** C6, as stated, fails: with the engine failing, [read_items] prints a
    line and returns the empty list; nothing is raised. *)
Lemma read_items_swallows_failure_counterexample :
  read_items FailConnect None fresh = (mkWorld empty_db [ReadError], Returned (RRows []))
  /\ snd (read_items FailConnect None fresh) <> Raised SqliteError.
Proof. split; [reflexivity | discriminate]. Qed.

(** C6 (amended). Whenever the engine raises inside one of the four
    methods, the method catches it: it prints its error line and returns
    normally ([None]; the empty list for [read_items]), and the table is
    what it was before the call. *)
Theorem storage_failure_is_reported (f : fault) (w w' : world) :
  (forall name category quantity purchase_date status location responsible_person notes,
      create_item_body f name category quantity purchase_date status location
        responsible_person notes w = (w', Raised SqliteError) ->
      create_item f name category quantity purchase_date status location
        responsible_person notes w
      = (mkWorld (store w) (console w' ++ [DbError]), Returned RNone))
  /\ (forall filters,
         read_items_body f filters w = (w', Raised SqliteError) ->
         read_items f filters w
         = (mkWorld (store w) (console w' ++ [ReadError]), Returned (RRows [])))
  /\ (forall item_id kwargs,
         update_item_body f item_id kwargs w = (w', Raised SqliteError) ->
         update_item f item_id kwargs w
         = (mkWorld (store w) (console w' ++ [DbError]), Returned RNone))
  /\ (forall item_id,
         delete_item_body f item_id w = (w', Raised SqliteError) ->
         delete_item f item_id w
         = (mkWorld (store w) (console w' ++ [DeleteError]), Returned RNone)).
Proof.
  repeat split; intros.
  - unfold create_item, try_except. rewrite H. cbn.
    enough (store w' = store w) as -> by reflexivity.
    revert H. unfold create_item_body, bind, raise_if, strptime, connect, execute, commit,
      print, ret, raise.
    repeat case_match; raised; reflexivity.
  - unfold read_items, try_except. rewrite H. cbn.
    enough (store w' = store w) as -> by reflexivity.
    revert H. unfold read_items_body, bind, connect, execute, ret, raise.
    repeat case_match; raised; reflexivity.
  - unfold update_item, try_except. rewrite H. cbn.
    enough (store w' = store w) as -> by reflexivity.
    revert H. unfold update_item_body. destruct kwargs as [|kw kwargs].
    + unfold bind, print, ret. raised.
    + unfold bind at 1. rewrite for_each_update_eq.
      unfold bind, connect, execute, commit, print, ret, raise.
      repeat case_match; raised; reflexivity.
  - unfold delete_item, try_except. rewrite H. cbn.
    enough (store w' = store w) as -> by reflexivity.
    revert H. unfold delete_item_body, bind, connect, execute, commit, print, ret, raise.
    repeat case_match; raised; reflexivity.
Qed.

Lemma storage_failure_is_reported_witness :
  update_item_body FailCommit 1 [("quantity", PInt 3)] office
  = (mkWorld (store office) [Updated 1], Raised SqliteError)
  /\ update_item FailCommit 1 [("quantity", PInt 3)] office
     = (mkWorld (store office) [Updated 1; DbError], Returned RNone).
Proof.
  split; [reflexivity|].
  apply (proj1 (proj2 (proj2
           (storage_failure_is_reported FailCommit office
              (mkWorld (store office) [Updated 1]))))
           1 [("quantity", PInt 3)]).
  reflexivity.
Defined.

(** ** [update_item]: from the loop to the table *)

Lemma update_item_body_eq (f : fault) (item_id : Z) (kwargs : list (string * pyval))
    (w : world) :
  kwargs <> [] ->
  update_item_body f item_id kwargs w
  = match first_error kwargs with
    | Some e => (w, Raised e)
    | None => update_tail f item_id (set_items kwargs) (set_params kwargs) w
    end.
Proof.
  intros Hne. unfold update_item_body.
  destruct kwargs as [|kw kwargs]; [congruence|].
  unfold bind at 1. rewrite for_each_update_eq.
  destruct (first_error (kw :: kwargs)); reflexivity.
Qed.

Lemma recognized_column (kw : string * pyval) :
  recognized kw = true ->
  exists c, field_column (fst kw) = Some c /\ column_name c = fst kw /\ In c data_columns.
Proof.
  unfold recognized. destruct kw as [field value]; cbn [fst snd].
  intros H. apply andb_prop in H. destruct H as [H _].
  cbn [existsb valid_fields] in H.
  repeat (apply orb_prop in H; destruct H as [H | H]);
    try discriminate;
    apply String.eqb_eq in H; subst field;
    eexists; (split; [reflexivity | (split; [reflexivity | simpl; tauto])]).
Qed.

Lemma column_name_inj (c c' : column) : column_name c = column_name c' -> c = c'.
Proof. destruct c, c'; simpl; intros H; try reflexivity; discriminate. Qed.

Lemma field_column_name (field : string) (c : column) :
  field_column field = Some c -> column_name c = field /\ In c data_columns.
Proof.
  unfold field_column. intros H. apply find_some in H. destruct H as [Hin H].
  apply String.eqb_eq in H. auto.
Qed.

Lemma set_items_render (kwargs : list (string * pyval)) :
  String.concat ", " (set_items kwargs) = render " = ?" ", " (assigned kwargs).
Proof.
  unfold set_items, render, assigned. f_equal.
  assert (H : Forall (fun kw => recognized kw = true) (effective kwargs)).
  { apply Forall_forall. intros kw Hkw. now apply filter_In in Hkw. }
  induction H as [|kw l Hkw Hl IH]; [reflexivity|].
  destruct (recognized_column kw Hkw) as (c & Hc & Hname & _).
  cbn [map flat_map]. rewrite Hc. cbn [app map]. now rewrite Hname, IH.
Qed.

Lemma assigned_length (kwargs : list (string * pyval)) :
  List.length (assigned kwargs) = List.length (effective kwargs).
Proof.
  unfold assigned.
  assert (H : Forall (fun kw => recognized kw = true) (effective kwargs)).
  { apply Forall_forall. intros kw Hkw. now apply filter_In in Hkw. }
  induction H as [|kw l Hkw Hl IH]; [reflexivity|].
  destruct (recognized_column kw Hkw) as (c & Hc & _).
  cbn [flat_map]. rewrite Hc. cbn [app List.length]. now rewrite IH.
Qed.

Lemma assigned_data_columns (kwargs : list (string * pyval)) :
  Forall (fun c => In c data_columns) (assigned kwargs).
Proof.
  unfold assigned. apply Forall_forall. intros c Hc.
  apply in_flat_map in Hc. destruct Hc as (kw & _ & Hc).
  destruct (field_column (fst kw)) as [c'|] eqn:E; [|contradiction].
  destruct Hc as [<- | []]. now apply field_column_name in E.
Qed.

(** What the engine makes of the statement that [update_item] sends. *)
Lemma execute_update (d : db) (item_id : Z) (kwargs : list (string * pyval)) :
  effective kwargs <> [] ->
  Sqlite.execute d
    ("UPDATE inventory SET " ++ String.concat ", " (set_items kwargs) ++ " WHERE id = ?")
    (set_params kwargs ++ [PInt item_id])
  = match Sqlite.update_rows (assigned kwargs) (set_params kwargs) item_id (rows d) with
    | Some (l, n) => Sqlite.Done (mkDb l (seq d)) n []
    | None => Sqlite.Unmodelled
    end.
Proof.
  intros Hne. unfold Sqlite.execute.
  rewrite set_items_render, parse_update.
  - unfold Sqlite.run.
    rewrite length_app, assigned_length. unfold set_params at 1.
    rewrite length_map. cbn [List.length].
    rewrite Nat.add_1_r, Nat.eqb_refl. cbn [negb].
    now rewrite last_last, removelast_last.
  - intros E. apply (f_equal (@List.length column)) in E.
    rewrite assigned_length in E. destruct (effective kwargs); [congruence | discriminate].
  - apply assigned_data_columns.
Qed.

Lemma entry_sets (kw : string * pyval) (c : column) (r : item) :
  recognized kw = true -> entry_error kw = None -> field_column (fst kw) = Some c ->
  exists r', Sqlite.set_column c (snd kw) r = Some r'.
Proof.
  intros Hrec Herr Hc. apply field_column_name in Hc. destruct Hc as [Hname Hin].
  unfold entry_error in Herr. rewrite Hrec in Herr.
  unfold recognized in Hrec. apply andb_prop in Hrec. destruct Hrec as [_ Hnone].
  destruct kw as [field v]; cbn [fst snd] in *. subst field.
  destruct c; simpl in Hin; try (exfalso; intuition discriminate);
    destruct v; simpl in *; try discriminate; eauto.
Qed.

Lemma set_columns_assign (kwargs : list (string * pyval)) :
  first_error kwargs = None ->
  forall r : item,
    Sqlite.set_columns (assigned kwargs) (set_params kwargs) r
    = Some (assign_all kwargs r).
Proof.
  unfold assigned, set_params, assign_all, effective.
  induction kwargs as [|kw kwargs IH]; intros Herr r; [reflexivity|].
  cbn [first_error] in Herr.
  destruct (entry_error kw) eqn:Ekw; [discriminate|].
  cbn [filter]. destruct (recognized kw) eqn:Hrec; [|now apply IH].
  destruct (recognized_column kw Hrec) as (c & Hc & _).
  destruct (entry_sets kw c r Hrec Ekw Hc) as (r' & Hr').
  cbn [flat_map map assign_entries]. unfold assign_entry.
  rewrite Hc. cbn [app Sqlite.set_columns]. rewrite Hr'. now apply IH.
Qed.

Lemma update_rows_eq (kwargs : list (string * pyval)) (target : Z) (l : list item) :
  first_error kwargs = None ->
  Sqlite.update_rows (assigned kwargs) (set_params kwargs) target l
  = Some (updated_rows kwargs target l, count_id target l).
Proof.
  intros Herr. unfold updated_rows, count_id.
  induction l as [|r l IH]; [reflexivity|].
  cbn [Sqlite.update_rows map filter]. rewrite IH.
  destruct (id r =? target).
  - rewrite set_columns_assign by assumption.
    cbn [List.length]. do 2 f_equal. lia.
  - reflexivity.
Qed.

Lemma set_items_nonempty (kwargs : list (string * pyval)) :
  effective kwargs <> [] -> set_items kwargs <> [].
Proof.
  unfold set_items. destruct (effective kwargs); [congruence | discriminate].
Qed.


Lemma count_id_present (target : Z) (l : list item) :
  In target (map id l) -> 0 < count_id target l.
Proof.
  unfold count_id. induction l as [|r l IH]; intros H; [contradiction|].
  cbn [filter]. destruct (Z.eqb_spec (id r) target) as [E|E].
  - cbn [List.length]. lia.
  - apply IH. destruct H as [H | H]; [congruence | exact H].
Qed.


Lemma world_eta (w : world) :
  mkWorld (mkDb (rows (store w)) (seq (store w))) (console w) = w.
Proof. destruct w as [[l s] c]. reflexivity. Qed.


(** [update_item] in closed form: every way a call can go. *)
Lemma update_item_eq (f : fault) (item_id : Z) (kwargs : list (string * pyval)) (w : world) :
  update_item f item_id kwargs w
  = match kwargs with
    | [] => (say w [NoData], Returned RNone)
    | _ :: _ =>
        match first_error kwargs with
        | Some (ValueError v) => (say w [Error v], Returned RNone)
        | Some SqliteError => (say w [DbError], Returned RNone)
        | Some e => (w, Raised e)
        | None =>
            match effective kwargs with
            | [] => (say w [NoFields], Returned RNone)
            | _ :: _ =>
                match f with
                | NoFault =>
                    (mkWorld (mkDb (updated_rows kwargs item_id (rows (store w)))
                                (seq (store w)))
                       (console w ++ [update_flag item_id (rows (store w))]),
                     Returned RNone)
                | FailCommit =>
                    (say w [update_flag item_id (rows (store w)); DbError], Returned RNone)
                | _ => (say w [DbError], Returned RNone)
                end
            end
        end
    end.
Proof.
  destruct kwargs as [|kw kwargs]; [reflexivity|].
  set (kws := kw :: kwargs). assert (Hne : kws <> []) by discriminate.
  unfold update_item, try_except. rewrite update_item_body_eq by assumption.
  destruct (first_error kws) as [e|] eqn:Herr; [destruct e; reflexivity|].
  unfold update_tail.
  destruct (set_items kws) as [|y ys] eqn:Ey.
  { apply map_eq_nil in Ey. now rewrite Ey. }
  assert (Heff : effective kws <> []).
  { intros E. unfold set_items in Ey. rewrite E in Ey. discriminate. }
  rewrite <- Ey. clear Ey.
  destruct (effective kws) as [|x xs] eqn:E; [congruence|]. rewrite <- E in Heff.
  unfold bind, connect, execute, update_flag, say.
  destruct f; try reflexivity;
    rewrite execute_update, update_rows_eq by assumption;
    unfold ret, print, commit; cbn [rowcount view store console];
    destruct (count_id item_id (rows (store w)) =? 0); cbn;
    rewrite <- ?app_assoc; reflexivity.
Qed.

(** [create_item] in closed form. *)
Lemma create_item_eq (f : fault) (name category : string) (quantity : Z)
    (purchase_date status location responsible_person notes : string) (w : world) :
  create_item f name category quantity purchase_date status location
    responsible_person notes w
  = match first_failure name category quantity purchase_date status location with
    | Some e => (say w [Error e], Returned RNone)
    | None =>
        match f with
        | NoFault =>
            (mkWorld
               (mkDb (rows (store w)
                        ++ [created (store w) name category quantity purchase_date
                              status location responsible_person notes])
                  (Sqlite.next_id (store w)))
               (console w ++ [Added name]),
             Returned RNone)
        | _ => (say w [DbError], Returned RNone)
        end
    end.
Proof.
  unfold first_failure, create_item, try_except, create_item_body, bind, say.
  rewrite all_required_truthy.
  destruct ((name =? "")%string || (category =? "")%string
            || (purchase_date =? "")%string || (status =? "")%string
            || (location =? "")%string); [reflexivity|].
  cbn [negb raise_if ret].
  destruct (quantity <? 0); [reflexivity|].
  cbn [raise_if ret strptime].
  destruct (Datetime.strptime purchase_date); [|reflexivity].
  destruct f; reflexivity.
Qed.

Lemma count_id_remaining (target : Z) (l : list item) :
  Z.of_nat (List.length l) - Z.of_nat (List.length (remaining target l))
  = count_id target l.
Proof.
  unfold remaining, count_id.
  induction l as [|r l IH]; [reflexivity|].
  cbn [filter]. destruct (id r =? target); cbn [negb List.length]; lia.
Qed.

(** [delete_item] in closed form. *)
Lemma delete_item_eq (f : fault) (item_id : Z) (w : world) :
  delete_item f item_id w
  = match f with
    | NoFault =>
        (mkWorld (mkDb (remaining item_id (rows (store w))) (seq (store w)))
           (console w ++ [delete_flag item_id (rows (store w))]),
         Returned RNone)
    | FailCommit =>
        (say w [delete_flag item_id (rows (store w)); DeleteError], Returned RNone)
    | _ => (say w [DeleteError], Returned RNone)
    end.
Proof.
  unfold delete_flag. rewrite <- count_id_remaining.
  unfold delete_item, try_except, delete_item_body, bind, connect, execute, say.
  destruct f; try reflexivity;
    change (Sqlite.execute (store w) "DELETE FROM inventory WHERE id = ?" [PInt item_id])
      with (Sqlite.Done (mkDb (remaining item_id (rows (store w))) (seq (store w)))
              (Z.of_nat (List.length (rows (store w)))
               - Z.of_nat (List.length (remaining item_id (rows (store w))))) []);
    unfold ret, print, commit; cbn [rowcount view store console];
    destruct (_ =? 0); cbn; rewrite <- ?app_assoc; reflexivity.
Qed.


Lemma remaining_gone (target : Z) (l : list item) :
  ~ In target (map id (remaining target l)).
Proof.
  unfold remaining. intros H. apply in_map_iff in H. destruct H as (r & Hid & Hr).
  apply filter_In in Hr. destruct Hr as [_ Hr].
  rewrite <- Hid, Z.eqb_refl in Hr. discriminate.
Qed.

(** ** Rows that are not there *)




(** ** Creation *)

Lemma id_le_max (l : list item) :
  Forall (fun x => id x <= fold_right Z.max 0 (map id l)) l.
Proof.
  induction l as [|r l IH]; constructor; cbn [map fold_right].
  - lia.
  - eapply Forall_impl; [|exact IH]. cbn beta. intros x Hx. lia.
Qed.

Lemma next_id_fresh (d : db) :
  seq d < Sqlite.next_id d /\ Forall (fun x => id x < Sqlite.next_id d) (rows d).
Proof.
  unfold Sqlite.next_id. split; [lia|].
  eapply Forall_impl; [|apply id_le_max]. cbn beta. intros x Hx. lia.
Qed.




(** ** Updates *)

Lemma recognized_iff (kw : string * pyval) :
  recognized kw = true <-> In (fst kw) valid_fields /\ snd kw <> PNone.
Proof.
  unfold recognized. rewrite andb_true_iff, existsb_exists. split.
  - intros [(x & Hx & E) Hv]. apply String.eqb_eq in E. subst x.
    split; [exact Hx|]. intros Hn. rewrite Hn in Hv. discriminate.
  - intros [Hin Hv]. split.
    + exists (fst kw). split; [exact Hin | apply String.eqb_refl].
    + destruct (snd kw); [congruence | reflexivity | reflexivity].
Qed.

Lemma entry_error_unrecognized (kw : string * pyval) :
  recognized kw = false -> entry_error kw = None.
Proof. unfold entry_error. now intros ->. Qed.

Lemma first_error_effective (kwargs : list (string * pyval)) :
  first_error (effective kwargs) = first_error kwargs.
Proof.
  unfold effective. induction kwargs as [|kw kwargs IH]; [reflexivity|].
  cbn [filter first_error]. destruct (recognized kw) eqn:E.
  - cbn [first_error]. now rewrite IH.
  - now rewrite entry_error_unrecognized.
Qed.

Lemma effective_idem (kwargs : list (string * pyval)) :
  effective (effective kwargs) = effective kwargs.
Proof.
  unfold effective. induction kwargs as [|kw kwargs IH]; [reflexivity|].
  cbn [filter]. destruct (recognized kw) eqn:E; [|exact IH].
  cbn [filter]. now rewrite E, IH.
Qed.

(** A call depends on its mapping only through the first error of the
    loop and the entries the loop takes up. *)
Lemma update_item_ext (f : fault) (item_id : Z) (k1 k2 : list (string * pyval)) (w : world) :
  k1 <> [] -> k2 <> [] ->
  first_error k1 = first_error k2 -> effective k1 = effective k2 ->
  update_item f item_id k1 w = update_item f item_id k2 w.
Proof.
  intros H1 H2 Herr Heff. rewrite !update_item_eq.
  destruct k1 as [|a k1]; [congruence|]. destruct k2 as [|b k2]; [congruence|].
  rewrite Herr, Heff. unfold updated_rows, assign_all. now rewrite Heff.
Qed.

Lemma first_error_app (l1 l2 : list (string * pyval)) :
  first_error (l1 ++ l2)
  = match first_error l1 with
    | Some e => Some e
    | None => first_error l2
    end.
Proof.
  induction l1 as [|kw l1 IH]; [reflexivity|].
  cbn [app first_error]. destruct (entry_error kw); [reflexivity | exact IH].
Qed.

(** C10. An entry whose value is [None] counts as absent: with or without
    it the call does the same, as long as another entry remains; and a
    non-empty mapping in which every known field carries [None] is turned
    down with "no fields to update", the table untouched. *)
Theorem update_item_none_is_absent (f : fault) (item_id : Z) (w : world) :
  (forall (field : string) (l1 l2 : list (string * pyval)),
      (l1 ++ l2)%list <> [] ->
      update_item f item_id (l1 ++ (field, PNone) :: l2) w
      = update_item f item_id (l1 ++ l2) w)
  /\ (forall kwargs : list (string * pyval),
         kwargs <> [] ->
         (forall kw, In kw kwargs -> In (fst kw) valid_fields -> snd kw = PNone) ->
         update_item f item_id kwargs w = (say w [NoFields], Returned RNone)).
Proof.
  split.
  - intros field l1 l2 Hne.
    assert (Hrec : recognized (field, PNone) = false).
    { unfold recognized. cbn [snd is_none negb]. apply andb_false_r. }
    apply update_item_ext; try assumption.
    + destruct l1; discriminate.
    + rewrite !first_error_app. cbn [first_error].
      now rewrite (entry_error_unrecognized _ Hrec).
    + unfold effective. rewrite !filter_app. cbn [filter]. now rewrite Hrec.
  - intros kwargs Hne Hnone.
    assert (Hrec : forall kw, In kw kwargs -> recognized kw = false).
    { intros kw Hkw. destruct (recognized kw) eqn:E; [|reflexivity].
      apply recognized_iff in E. destruct E as [Hin Hv].
      now contradiction Hv; apply Hnone. }
    assert (Heff : effective kwargs = []).
    { unfold effective. clear Hne Hnone.
      induction kwargs as [|kw kwargs IH]; [reflexivity|].
      cbn [filter]. rewrite (Hrec kw) by now left.
      apply IH. intros k Hk. apply Hrec. now right. }
    rewrite update_item_eq, <- first_error_effective, Heff. cbn [first_error].
    destruct kwargs; [congruence | reflexivity].
Qed.

Lemma update_item_none_is_absent_witness :
  update_item NoFault 1 [("name", PNone); ("quantity", PInt 3)] office
  = update_item NoFault 1 [("quantity", PInt 3)] office
  /\ update_item NoFault 1 [("name", PNone); ("bogus", PInt 1)] office
     = (say office [NoFields], Returned RNone).
Proof.
  split.
  - apply (proj1 (update_item_none_is_absent NoFault 1 office) "name" []
             [("quantity", PInt 3)]).
    discriminate.
  - apply (proj2 (update_item_none_is_absent NoFault 1 office)).
    + discriminate.
    + intros kw [<- | [<- | []]] H; [reflexivity|].
      simpl in H. repeat (destruct H as [H | H]; [discriminate|]). contradiction.
Defined.








Lemma set_column_get (c : column) (v : pyval) (r r' : item) :
  Sqlite.set_column c v r = Some r' ->
  get_field c r' = stored c v
  /\ forall c', c' <> c -> get_field c' r' = get_field c' r.
Proof.
  destruct c, v; simpl; intros H; inversion H; subst; clear H;
    (split; [reflexivity|]); intros c' Hc'; destruct c'; try reflexivity; congruence.
Qed.

Lemma assign_entry_get (kw : string * pyval) (r : item) (c : column) :
  recognized kw = true -> entry_error kw = None ->
  get_field c (assign_entry r kw)
  = if (fst kw =? column_name c)%string then stored c (snd kw) else get_field c r.
Proof.
  intros Hrec Herr.
  destruct (recognized_column kw Hrec) as (c0 & Hc0 & Hname & _).
  destruct (entry_sets kw c0 r Hrec Herr Hc0) as (r' & Hr').
  unfold assign_entry. rewrite Hc0, Hr'.
  destruct (set_column_get c0 (snd kw) r r' Hr') as [Hset Hframe].
  destruct (String.eqb_spec (fst kw) (column_name c)) as [E|E].
  - rewrite <- Hname in E. apply column_name_inj in E. now subst c0.
  - apply Hframe. intros ->. now apply E.
Qed.

Lemma effective_valid (kwargs : list (string * pyval)) :
  first_error kwargs = None ->
  Forall (fun kw => recognized kw = true /\ entry_error kw = None) (effective kwargs).
Proof.
  unfold effective. induction kwargs as [|kw kwargs IH]; intros H; [constructor|].
  cbn [first_error] in H. destruct (entry_error kw) eqn:E; [discriminate|].
  cbn [filter]. destruct (recognized kw) eqn:Hrec; auto.
Qed.

Lemma assign_entries_get (l : list (string * pyval)) :
  Forall (fun kw => recognized kw = true /\ entry_error kw = None) l ->
  forall (r : item) (c : column),
    get_field c (assign_entries l r)
    = match last_value c l with
      | Some v => stored c v
      | None => get_field c r
      end.
Proof.
  induction 1 as [|kw l [Hrec Herr] Hl IH]; intros r c; [reflexivity|].
  cbn [assign_entries last_value]. rewrite IH.
  destruct (last_value c l); [reflexivity|].
  rewrite assign_entry_get by assumption.
  destruct (fst kw =? column_name c)%string; reflexivity.
Qed.

Lemma last_value_in (c : column) (l : list (string * pyval)) (v : pyval) :
  last_value c l = Some v -> In (column_name c, v) l.
Proof.
  induction l as [|[k x] l IH]; cbn [last_value fst snd]; [discriminate|].
  destruct (last_value c l).
  - intros H. right. auto.
  - destruct (String.eqb_spec k (column_name c)) as [->|_]; [|discriminate].
    intros H; inversion H; subst. now left.
Qed.

Lemma last_value_unique (c : column) (l : list (string * pyval)) (v : pyval) :
  NoDup (map fst l) -> In (column_name c, v) l -> last_value c l = Some v.
Proof.
  induction l as [|[k x] l IH]; intros Hnd Hin; [contradiction|].
  cbn [map fst] in Hnd. inversion Hnd as [|k0 ks Hk Hl]; subst.
  cbn [last_value fst snd]. destruct Hin as [E | Hin].
  - inversion E; subst. destruct (last_value c l) as [v'|] eqn:Ev.
    + exfalso. apply Hk. apply last_value_in in Ev.
      apply in_map_iff. now exists (column_name c, v').
    + now rewrite String.eqb_refl.
  - now rewrite (IH Hl Hin).
Qed.

Lemma nodup_filter_keys (p : string * pyval -> bool) (l : list (string * pyval)) :
  NoDup (map fst l) -> NoDup (map fst (filter p l)).
Proof.
  induction l as [|kw l IH]; intros H; [constructor|].
  cbn [map] in H. inversion H as [|k ks Hk Hl]; subst.
  cbn [filter]. destruct (p kw); [|auto].
  cbn [map]. constructor; [|auto].
  intros Hin. apply Hk. apply in_map_iff in Hin. destruct Hin as (x & Hx & Hin).
  apply filter_In in Hin. apply in_map_iff. exists x. tauto.
Qed.

Lemma update_item_success (f : fault) (item_id : Z) (kwargs : list (string * pyval))
    (w w' : world) :
  update_item f item_id kwargs w = (w', Returned RNone) ->
  console w' = (console w ++ [Updated item_id])%list ->
  first_error kwargs = None /\ effective kwargs <> [] /\ f = NoFault
  /\ store w' = mkDb (updated_rows kwargs item_id (rows (store w))) (seq (store w)).
Proof.
  rewrite update_item_eq. unfold say, update_flag.
  destruct kwargs as [|kw kwargs];
    [intros H; inversion H; subst; cbn; intros Hc; apply app_inv_head in Hc; discriminate|].
  destruct (first_error (kw :: kwargs)) as [[v| | |]|];
    try (intros H; inversion H; subst; cbn; intros Hc; apply app_inv_head in Hc;
         discriminate).
  destruct (effective (kw :: kwargs)) as [|x xs];
    [intros H; inversion H; subst; cbn; intros Hc; apply app_inv_head in Hc; discriminate|].
  destruct f; intros H; inversion H; subst; cbn; intros Hc; apply app_inv_head in Hc;
    try discriminate.
  repeat split; congruence.
Qed.

(** C4. After a call of [update_item] that reports success, the table is
    the old one with the row of that id replaced: the counter and every
    other row are as before, the row keeps its id, and each column holds
    the value supplied for it (the value of the entry for that field, not
    [None], the field being one of [valid_fields]) or, when none was
    supplied, what it held before.  Entries with other names change
    nothing: without them the call does the same. *)
Theorem update_item_frame (f : fault) (item_id : Z) (kwargs : list (string * pyval))
    (w w' : world) :
  update_item f item_id kwargs w = (w', Returned RNone) ->
  console w' = (console w ++ [Updated item_id])%list ->
  rows (store w')
  = map (fun r => if id r =? item_id then assign_all kwargs r else r) (rows (store w))
  /\ seq (store w') = seq (store w)
  /\ (forall r, id (assign_all kwargs r) = id r)
  /\ (forall r c,
         get_field c (assign_all kwargs r)
         = match supplied c kwargs with
           | Some v => stored c v
           | None => get_field c r
           end)
  /\ (forall c v,
         supplied c kwargs = Some v ->
         In (column_name c, v) kwargs /\ In (column_name c) valid_fields /\ v <> PNone)
  /\ (NoDup (map fst kwargs) ->
      forall c v,
        In (column_name c, v) kwargs -> In (column_name c) valid_fields -> v <> PNone ->
        supplied c kwargs = Some v)
  /\ update_item f item_id (effective kwargs) w = (w', Returned RNone).
Proof.
  intros Hrun Hconsole.
  destruct (update_item_success f item_id kwargs w w' Hrun Hconsole)
    as (Herr & Heff & -> & Hstore).
  assert (Hget : forall r c,
             get_field c (assign_all kwargs r)
             = match supplied c kwargs with
               | Some v => stored c v
               | None => get_field c r
               end).
  { intros r c. apply assign_entries_get. now apply effective_valid. }
  assert (Hsup : forall c v,
             supplied c kwargs = Some v ->
             In (column_name c, v) kwargs /\ In (column_name c) valid_fields
             /\ v <> PNone).
  { intros c v H. apply last_value_in in H. apply filter_In in H.
    destruct H as [Hin Hrec]. apply recognized_iff in Hrec. tauto. }
  rewrite Hstore. cbn [rows seq].
  split; [reflexivity|]. split; [reflexivity|].
  split; [|split; [exact Hget|split; [exact Hsup|split]]].
  - intros r. specialize (Hget r Cid).
    destruct (supplied Cid kwargs) as [v|] eqn:E.
    + apply Hsup in E. destruct E as (_ & Hin & _).
      simpl in Hin. repeat (destruct Hin as [Hin | Hin]; [discriminate|]). contradiction.
    + simpl in Hget. congruence.
  - intros Hnd c v Hin Hvalid Hv. apply last_value_unique.
    + now apply nodup_filter_keys.
    + apply filter_In. split; [exact Hin|]. now apply recognized_iff.
  - rewrite <- Hrun. symmetry. apply update_item_ext.
    + intros ->. now apply Heff.
    + exact Heff.
    + symmetry. apply first_error_effective.
    + symmetry. apply effective_idem.
Qed.

Lemma update_item_frame_witness :
  let kwargs := [("quantity", PInt 3); ("colour", PStr "red"); ("notes", PNone)] in
  let w' := mkWorld (mkDb [mkItem 1 "Desk" "Furniture" 3 "2024-01-15" "in use" "Room 102"
                             "" ""] 1) [Updated 1] in
  update_item NoFault 1 kwargs office = (w', Returned RNone)
  /\ rows (store w')
     = map (fun r => if id r =? 1 then assign_all kwargs r else r) (rows (store office))
  /\ update_item NoFault 1 (effective kwargs) office = (w', Returned RNone).
Proof.
  intros kwargs w'.
  assert (Hrun : update_item NoFault 1 kwargs office = (w', Returned RNone))
    by reflexivity.
  destruct (update_item_frame NoFault 1 kwargs office w' Hrun eq_refl)
    as (Hrows & _ & _ & _ & _ & _ & Heff).
  auto.
Defined.

(** ** What every reachable table satisfies *)

Lemma read_items_store (f : fault) (filters : option (list (string * string))) (w : world) :
  store (fst (read_items f filters w)) = store w.
Proof.
  unfold read_items, try_except, read_items_body, bind, connect, execute, ret, raise,
    print.
  repeat case_match; reflexivity.
Qed.

Lemma ascending_map (g : item -> item) (l : list item) :
  (forall r, id (g r) = id r) -> ascending l -> ascending (map g l).
Proof.
  unfold ascending. intros Hg. induction 1 as [|x l Hs IH Hx]; cbn [map]; constructor.
  - exact IH.
  - apply Forall_forall. intros y Hy. apply in_map_iff in Hy.
    destruct Hy as (z & <- & Hz). rewrite !Hg.
    rewrite Forall_forall in Hx. now apply Hx.
Qed.

Lemma ascending_snoc (l : list item) (r : item) :
  ascending l -> Forall (fun x => id x < id r) l -> ascending (l ++ [r]).
Proof.
  unfold ascending. induction 1 as [|x l Hs IH Hx]; intros Hr; cbn [app].
  - repeat constructor.
  - inversion Hr as [|x0 l0 Hxr Hlr]; subst. constructor; [now apply IH|].
    apply Forall_app. split; [exact Hx | now constructor].
Qed.

Lemma supplied_valid (kwargs : list (string * pyval)) (c : column) (v : pyval) :
  first_error kwargs = None -> supplied c kwargs = Some v ->
  recognized (column_name c, v) = true /\ entry_error (column_name c, v) = None.
Proof.
  intros Herr H. apply last_value_in in H.
  pose proof (effective_valid kwargs Herr) as Hall.
  rewrite Forall_forall in Hall. now apply Hall.
Qed.

Lemma assign_all_id (kwargs : list (string * pyval)) (r : item) :
  first_error kwargs = None -> id (assign_all kwargs r) = id r.
Proof.
  intros Herr.
  pose proof (assign_entries_get _ (effective_valid kwargs Herr) r Cid) as Hget.
  fold (assign_all kwargs r) in Hget. fold (supplied Cid kwargs) in Hget.
  destruct (supplied Cid kwargs) as [v|] eqn:E.
  - apply (supplied_valid kwargs Cid v Herr) in E. destruct E as [E _].
    discriminate.
  - simpl in Hget. congruence.
Qed.

Lemma assign_all_sound (kwargs : list (string * pyval)) (r : item) :
  first_error kwargs = None -> sound r -> sound (assign_all kwargs r).
Proof.
  intros Herr [Hq Hd].
  pose proof (assign_entries_get _ (effective_valid kwargs Herr) r) as Hget.
  fold (assign_all kwargs r) in Hget. split.
  - specialize (Hget Cquantity). fold (supplied Cquantity kwargs) in Hget.
    destruct (supplied Cquantity kwargs) as [v|] eqn:E.
    + apply (supplied_valid kwargs Cquantity v Herr) in E. destruct E as [_ E].
      destruct v as [|n|s]; try discriminate.
      unfold entry_error in E. cbn in E. cbn in Hget.
      destruct (Z.ltb_spec n 0); [discriminate|]. congruence.
    + simpl in Hget. congruence.
  - specialize (Hget Cpurchase_date). fold (supplied Cpurchase_date kwargs) in Hget.
    destruct (supplied Cpurchase_date kwargs) as [v|] eqn:E.
    + apply (supplied_valid kwargs Cpurchase_date v Herr) in E. destruct E as [_ E].
      destruct v as [|n|s]; try discriminate.
      unfold entry_error in E. cbn in E. cbn in Hget.
      destruct (Datetime.strptime s) eqn:Es; [|discriminate].
      inversion Hget as [Hp]. rewrite Hp, Es. discriminate.
    + simpl in Hget. inversion Hget as [Hp]. now rewrite Hp.
Qed.

Lemma first_failure_sound (n c : string) (q : Z) (p s l rp nt : string) (new_id : Z) :
  first_failure n c q p s l = None ->
  sound (mkItem new_id n c q p s l rp nt) /\ complete (mkItem new_id n c q p s l rp nt).
Proof.
  unfold first_failure, sound, complete.
  cbn [name category quantity purchase_date status location].
  destruct (String.eqb_spec n ""); [discriminate|].
  destruct (String.eqb_spec c ""); [discriminate|].
  destruct (String.eqb_spec p ""); [discriminate|].
  destruct (String.eqb_spec s ""); [discriminate|].
  destruct (String.eqb_spec l ""); [discriminate|].
  cbn [orb]. destruct (Z.ltb_spec q 0); [discriminate|].
  destruct (Datetime.strptime p); [|discriminate].
  intros _. repeat split; try assumption. discriminate.
Qed.

(** One call keeps the invariant and never lowers the counter. *)
Lemma call_invariant (f : fault) (c : call) (w : world) :
  invariant (store w) ->
  invariant (store (fst (run_call f c w)))
  /\ seq (store w) <= seq (store (fst (run_call f c w))).
Proof.
  intros (Hseq & Hasc & Hrows). destruct c; cbn [run_call].
  - rewrite create_item_eq.
    destruct (first_failure name0 category0 quantity0 purchase_date0 status0 location0)
      eqn:Hok; [cbn; split; [repeat split; assumption | lia]|].
    destruct f; try (cbn; split; [repeat split; assumption | lia]).
    cbn [fst store rows seq].
    destruct (next_id_fresh (store w)) as [Hnew Hids].
    split; [|lia]. unfold invariant. cbn [rows seq]. split; [lia|]. split.
    + apply ascending_snoc; assumption.
    + apply Forall_app. split.
      * eapply Forall_impl; [|exact Hrows]. cbn beta. intros r [Hid Hs].
        split; [lia | exact Hs].
      * constructor; [|constructor]. unfold created. cbn [id]. split; [lia|].
        now apply (first_failure_sound _ _ _ _ _ _ responsible_person0 notes0
                     (Sqlite.next_id (store w))) in Hok.
  - rewrite read_items_store. split; [repeat split; assumption | lia].
  - rewrite update_item_eq.
    destruct kwargs as [|kw kwargs]; [cbn; split; [repeat split; assumption | lia]|].
    destruct (first_error (kw :: kwargs)) as [e|] eqn:Herr;
      [destruct e; cbn; split; try lia; repeat split; assumption|].
    destruct (effective (kw :: kwargs)) as [|x xs];
      [cbn; split; [repeat split; assumption | lia]|].
    destruct f; try (cbn; split; [repeat split; assumption | lia]).
    cbn [fst store rows seq]. split; [|lia].
    unfold invariant. cbn [rows seq]. split; [exact Hseq|].
    unfold updated_rows. split.
    + apply ascending_map; [|exact Hasc].
      intros r. destruct (id r =? item_id); [now apply assign_all_id | reflexivity].
    + apply Forall_forall. intros r' Hr'. apply in_map_iff in Hr'.
      destruct Hr' as (r & <- & Hr). rewrite Forall_forall in Hrows.
      destruct (Hrows r Hr) as [Hid Hs].
      destruct (id r =? item_id); [|tauto].
      rewrite assign_all_id by assumption. split; [exact Hid|].
      now apply assign_all_sound.
  - rewrite delete_item_eq.
    destruct f; try (cbn; split; [repeat split; assumption | lia]).
    cbn [fst store rows seq]. split; [|lia].
    unfold invariant. cbn [rows seq]. split; [exact Hseq|].
    unfold remaining. split.
    + now apply ascending_filter.
    + apply Forall_forall. intros r Hr. apply filter_In in Hr.
      rewrite Forall_forall in Hrows. now apply Hrows.
Qed.

(** In every reachable state the ids are positive, distinct, ascending in
    table order and at most the counter, every quantity is at least zero
    and every purchase date is one that [strptime] accepts. *)
Theorem reachable_invariant (w : world) : reachable w -> invariant (store w).
Proof.
  induction 1 as [|f c w Hw IH].
  - unfold invariant, fresh, empty_db. cbn [store rows seq].
    split; [lia|]. split; constructor.
  - now apply call_invariant.
Qed.

Example create_then_empty_name :
  (create_item NoFault "Desk" "Furniture" 2 "2024-01-15" "in use" "Room 102" "" "" ;;
   update_item NoFault 1 [("name", PStr "")]) fresh
  = (mkWorld (mkDb [mkItem 1 "" "Furniture" 2 "2024-01-15" "in use" "Room 102" "" ""] 1)
       [Added "Desk"; Updated 1],
     Returned RNone).
Proof. reflexivity. Qed.

(** C2: the required fields do not stay non-empty.  [create_item] checks
    them, [update_item] does not: for any row that is there, an update
    that supplies the empty string for [name] reports success and leaves
    that row with an empty name. *)
Theorem update_item_empties_required_field (item_id : Z) (w : world) :
  In item_id (map id (rows (store w))) ->
  exists w',
    update_item NoFault item_id [("name", PStr "")] w = (w', Returned RNone)
    /\ console w' = (console w ++ [Updated item_id])%list
    /\ (exists r, In r (rows (store w')) /\ id r = item_id)
    /\ (forall r, In r (rows (store w')) -> id r = item_id ->
                  name r = ""%string /\ ~ complete r).
Proof.
  intros Hin. eexists. split; [rewrite update_item_eq; reflexivity|].
  cbn [store rows seq console]. split; [|split].
  - unfold update_flag. pose proof (count_id_present _ _ Hin) as Hpos.
    destruct (Z.eqb_spec (count_id item_id (rows (store w))) 0); [lia | reflexivity].
  - apply in_map_iff in Hin. destruct Hin as (r & Hid & Hr).
    exists (assign_all [("name", PStr "")] r). split.
    + unfold updated_rows. apply in_map_iff. exists r.
      split; [|exact Hr]. now rewrite Hid, Z.eqb_refl.
    + exact Hid.
  - intros r' Hr' Hid. unfold updated_rows in Hr'. apply in_map_iff in Hr'.
    destruct Hr' as (r & <- & Hr).
    destruct (Z.eqb_spec (id r) item_id) as [E|E]; [|contradiction].
    split; [reflexivity|]. intros (Hname & _). now apply Hname.
Qed.

Lemma update_item_empties_required_field_witness :
  let w := fst (create_item NoFault "Desk" "Furniture" 2 "2024-01-15" "in use" "Room 102"
                  "" "" fresh) in
  In 1 (map id (rows (store w)))
  /\ exists w',
       update_item NoFault 1 [("name", PStr "")] w = (w', Returned RNone)
       /\ (exists r, In r (rows (store w')) /\ id r = 1)
       /\ (forall r, In r (rows (store w')) -> id r = 1 ->
                     name r = ""%string /\ ~ complete r).
Proof.
  intros w.
  assert (H : In 1 (map id (rows (store w)))) by (simpl; now left).
  split; [exact H|].
  destruct (update_item_empties_required_field 1 w H) as (w' & Hrun & _ & Hex & Hall).
  exists w'. auto.
Defined.

(** * Further properties of the four methods *)

(** ** Updates: repeating and reordering *)

Lemma item_ext (r1 r2 : item) :
  (forall c, get_field c r1 = get_field c r2) -> r1 = r2.
Proof.
  intros H. destruct r1, r2.
  generalize (H Cid) (H Cname) (H Ccategory) (H Cquantity) (H Cpurchase_date)
    (H Cstatus) (H Clocation) (H Cresponsible_person) (H Cnotes).
  cbn [get_field id name category quantity purchase_date status location
         responsible_person notes].
  congruence.
Qed.

Lemma assign_all_get (kwargs : list (string * pyval)) (r : item) (c : column) :
  first_error kwargs = None ->
  get_field c (assign_all kwargs r)
  = match supplied c kwargs with
    | Some v => stored c v
    | None => get_field c r
    end.
Proof. intros Herr. apply assign_entries_get. now apply effective_valid. Qed.

Lemma assign_all_idem (kwargs : list (string * pyval)) (r : item) :
  first_error kwargs = None ->
  assign_all kwargs (assign_all kwargs r) = assign_all kwargs r.
Proof.
  intros Herr. apply item_ext. intros c.
  rewrite (assign_all_get kwargs (assign_all kwargs r)) by assumption.
  destruct (supplied c kwargs) eqn:E; [|reflexivity].
  now rewrite assign_all_get, E.
Qed.

Lemma updated_rows_idem (kwargs : list (string * pyval)) (target : Z) (l : list item) :
  first_error kwargs = None ->
  updated_rows kwargs target (updated_rows kwargs target l) = updated_rows kwargs target l.
Proof.
  intros Herr. unfold updated_rows. rewrite map_map. apply map_ext. intros r.
  destruct (id r =? target) eqn:E; [|now rewrite E].
  now rewrite assign_all_id, E, assign_all_idem.
Qed.

Lemma updated_rows_ids (kwargs : list (string * pyval)) (target : Z) (l : list item) :
  first_error kwargs = None ->
  map id (updated_rows kwargs target l) = map id l.
Proof.
  intros Herr. unfold updated_rows. rewrite map_map. apply map_ext. intros r.
  destruct (id r =? target); [now apply assign_all_id | reflexivity].
Qed.

Lemma count_id_ids (target : Z) (l1 l2 : list item) :
  map id l1 = map id l2 -> count_id target l1 = count_id target l2.
Proof.
  unfold count_id. revert l2.
  induction l1 as [|a l1 IH]; intros [|b l2] H; try discriminate; [reflexivity|].
  cbn [map] in H. inversion H as [[Hab Hl]].
  cbn [filter]. rewrite Hab. specialize (IH l2 Hl).
  destruct (id b =? target); cbn [List.length]; lia.
Qed.

Lemma say_nil (w : world) : say w [] = w.
Proof. unfold say. rewrite app_nil_r. now destruct w. Qed.

(** X1. Calling [update_item] a second time with the same arguments
    prints the same lines as the first call, returns the same and leaves
    the table as the first call left it, whatever the arguments and
    however the engine is. *)
Theorem update_item_idempotent (f : fault) (item_id : Z) (kwargs : list (string * pyval))
    (w : world) :
  exists ms,
    console (fst (update_item f item_id kwargs w)) = (console w ++ ms)%list
    /\ update_item f item_id kwargs (fst (update_item f item_id kwargs w))
       = (say (fst (update_item f item_id kwargs w)) ms,
          snd (update_item f item_id kwargs w)).
Proof.
  rewrite (update_item_eq f item_id kwargs w).
  destruct kwargs as [|kw kwargs].
  { exists [NoData]. split; reflexivity. }
  set (kws := kw :: kwargs).
  destruct (first_error kws) as [e|] eqn:Herr.
  { destruct e as [v | | |].
    - exists [Error v]. split; [reflexivity|].
      now rewrite update_item_eq, Herr.
    - exists [DbError]. split; [reflexivity|].
      now rewrite update_item_eq, Herr.
    - exists []. cbn [fst snd]. split; [now rewrite app_nil_r|].
      now rewrite update_item_eq, Herr, say_nil.
    - exists []. cbn [fst snd]. split; [now rewrite app_nil_r|].
      now rewrite update_item_eq, Herr, say_nil. }
  destruct (effective kws) as [|x xs] eqn:Heff.
  { exists [NoFields]. split; [reflexivity|].
    now rewrite update_item_eq, Herr, Heff. }
  destruct f.
  - exists [update_flag item_id (rows (store w))]. split; [reflexivity|].
    rewrite update_item_eq, Herr, Heff. unfold kws at 1. cbn [fst snd store rows seq console].
    rewrite updated_rows_idem by assumption.
    unfold update_flag.
    rewrite (count_id_ids item_id (updated_rows kws item_id (rows (store w)))
               (rows (store w)))
      by now apply updated_rows_ids.
    reflexivity.
  - exists [DbError]. split; [reflexivity|].
    now rewrite update_item_eq, Herr, Heff.
  - exists [DbError]. split; [reflexivity|].
    now rewrite update_item_eq, Herr, Heff.
  - exists [update_flag item_id (rows (store w)); DbError]. split; [reflexivity|].
    now rewrite update_item_eq, Herr, Heff.
Qed.

Lemma first_error_forall (kwargs : list (string * pyval)) :
  first_error kwargs = None <-> Forall (fun kw => entry_error kw = None) kwargs.
Proof.
  induction kwargs as [|kw kwargs IH]; cbn [first_error].
  - split; [constructor | reflexivity].
  - destruct (entry_error kw) eqn:E.
    + split; [discriminate|]. intros H. inversion H. congruence.
    + rewrite IH. split; [now constructor | now inversion 1].
Qed.

Lemma filter_perm {A : Type} (p : A -> bool) (l1 l2 : list A) :
  Permutation l1 l2 -> Permutation (filter p l1) (filter p l2).
Proof.
  induction 1 as [|x l1 l2 H IH|x y l|l1 l2 l3 H1 IH1 H2 IH2]; cbn [filter].
  - constructor.
  - destruct (p x); [now constructor | exact IH].
  - destruct (p x), (p y); try reflexivity. apply perm_swap.
  - now transitivity (filter p l2).
Qed.

Lemma last_value_perm (c : column) (l1 l2 : list (string * pyval)) :
  Permutation l1 l2 -> NoDup (map fst l1) -> last_value c l1 = last_value c l2.
Proof.
  intros Hperm Hnd1.
  assert (Hnd2 : NoDup (map fst l2)).
  { eapply Permutation_NoDup; [|exact Hnd1]. now apply Permutation_map. }
  destruct (last_value c l1) as [v|] eqn:E1.
  - symmetry. apply last_value_unique; [exact Hnd2|].
    eapply Permutation_in; [exact Hperm | now apply last_value_in].
  - destruct (last_value c l2) as [v|] eqn:E2; [|reflexivity].
    apply last_value_in in E2.
    rewrite <- E1. apply last_value_unique; [exact Hnd1|].
    eapply Permutation_in; [symmetry; exact Hperm | exact E2].
Qed.

(** X2. The order of the entries does not matter to an [update_item]
    that passes the loop: for a mapping with distinct keys and no failing
    entry, any rearrangement of the entries prints the same, returns the
    same and leaves the same table. *)
Theorem update_item_order (f : fault) (item_id : Z) (k1 k2 : list (string * pyval))
    (w : world) :
  Permutation k1 k2 -> NoDup (map fst k1) -> first_error k1 = None ->
  update_item f item_id k1 w = update_item f item_id k2 w.
Proof.
  intros Hperm Hnd Herr1.
  assert (Herr2 : first_error k2 = None).
  { apply first_error_forall. eapply Permutation_Forall; [exact Hperm|].
    now apply first_error_forall. }
  assert (Heff : Permutation (effective k1) (effective k2)) by now apply filter_perm.
  assert (Hrows : forall l, updated_rows k1 item_id l = updated_rows k2 item_id l).
  { intros l. unfold updated_rows. apply map_ext. intros r.
    destruct (id r =? item_id); [|reflexivity].
    apply item_ext. intros c. rewrite !assign_all_get by assumption.
    unfold supplied. rewrite (last_value_perm c _ _ Heff); [reflexivity|].
    now apply nodup_filter_keys. }
  rewrite !update_item_eq, Herr1, Herr2, Hrows.
  destruct k1 as [|a k1], k2 as [|b k2]; try reflexivity.
  - now apply Permutation_nil_cons in Hperm.
  - symmetry in Hperm. now apply Permutation_nil_cons in Hperm.
  - destruct (effective (a :: k1)) as [|x xs], (effective (b :: k2)) as [|y ys];
      try reflexivity.
    + now apply Permutation_nil_cons in Heff.
    + symmetry in Heff. now apply Permutation_nil_cons in Heff.
Qed.

Lemma update_item_order_witness :
  update_item NoFault 1 [("quantity", PInt 3); ("notes", PStr "oak")] office
  = update_item NoFault 1 [("notes", PStr "oak"); ("quantity", PInt 3)] office.
Proof.
  apply update_item_order.
  - apply perm_swap.
  - repeat constructor; simpl; intuition discriminate.
  - reflexivity.
Defined.

(** ** Queries and deletions *)

Lemma applied_blank (filters : list (string * string)) :
  Forall (fun kv => snd kv = ""%string) filters -> applied filters = [].
Proof.
  unfold applied. induction 1 as [|kv l Hkv Hl IH]; [reflexivity|].
  cbn [filter]. now rewrite Hkv.
Qed.

(** X3. Entries with an empty value are dropped before their key is
    looked at: a filter set in which every value is empty, whatever its
    keys, gives the same call as no filter set at all. *)
Theorem read_items_blank_filters (f : fault) (filters : list (string * string))
    (w : world) :
  Forall (fun kv => snd kv = ""%string) filters ->
  read_query (Some filters) = read_query None
  /\ read_items f (Some filters) w = read_items f None w.
Proof.
  intros Hblank.
  assert (H : read_query (Some filters) = read_query None).
  { destruct filters as [|kv filters]; [reflexivity|].
    unfold read_query. rewrite read_step_fold, applied_blank by assumption.
    reflexivity. }
  split; [exact H|].
  unfold read_items, read_items_body. now rewrite H.
Qed.

Lemma read_items_blank_filters_witness :
  read_items NoFault (Some [("name", ""); ("no such column", "")]) office
  = read_items NoFault None office.
Proof.
  apply read_items_blank_filters. repeat constructor.
Defined.

Lemma filter_insert_by_name (p : item -> bool) (r : item) (l : list item) :
  StronglySorted name_le l ->
  filter p (Sqlite.insert_by_name r l)
  = if p r then Sqlite.insert_by_name r (filter p l) else filter p l.
Proof.
  induction 1 as [|x l Hs IH Hx]; cbn [Sqlite.insert_by_name filter].
  - destruct (p r); reflexivity.
  - destruct (String.leb (name r) (name x)) eqn:E; cbn [filter].
    + destruct (p r) eqn:Hr; [|reflexivity].
      destruct (p x); cbn [Sqlite.insert_by_name]; [now rewrite E|].
      assert (Hle : Forall (name_le r) (filter p l)).
      { apply Forall_forall. intros y Hy. apply filter_In in Hy.
        rewrite Forall_forall in Hx. eapply leb_trans; [exact E|].
        now apply Hx. }
      destruct (filter p l) as [|y ys]; [reflexivity|].
      cbn [Sqlite.insert_by_name]. inversion Hle as [|y0 ys0 Hy _]; subst.
      unfold name_le in Hy. now rewrite Hy.
    + rewrite IH. destruct (p x), (p r); cbn [Sqlite.insert_by_name];
        rewrite ?E; reflexivity.
Qed.

(** Filtering the result of [ORDER BY name] is ordering the filtered
    table. *)
Lemma filter_order_by_name (p : item -> bool) (l : list item) :
  filter p (Sqlite.order_by_name l) = Sqlite.order_by_name (filter p l).
Proof.
  induction l as [|r l IH]; [reflexivity|].
  cbn [Sqlite.order_by_name fold_right filter].
  fold (Sqlite.order_by_name l).
  rewrite filter_insert_by_name by apply order_by_name_sorted.
  rewrite IH. destruct (p r); reflexivity.
Qed.

Lemma filter_comm {A : Type} (p q : A -> bool) (l : list A) :
  filter p (filter q l) = filter q (filter p l).
Proof.
  induction l as [|x l IH]; [reflexivity|].
  cbn [filter]. destruct (p x) eqn:Hp, (q x) eqn:Hq; cbn [filter];
    rewrite ?Hp, ?Hq, IH; reflexivity.
Qed.

(** X4. After [delete_item] on a working engine, a query gives what the
    same query gave before, less the rows of the deleted id and in the
    same order; no row of that id is left in it. *)
Theorem delete_then_read (item_id : Z) (cfilters : list (column * string)) (w : world) :
  exists l,
    read_items NoFault (Some (keyed cfilters)) w = (w, Returned (RRows l))
    /\ read_items NoFault (Some (keyed cfilters)) (fst (delete_item NoFault item_id w))
       = (fst (delete_item NoFault item_id w), Returned (RRows (remaining item_id l)))
    /\ ~ In item_id (map id (remaining item_id l)).
Proof.
  eexists. split; [apply read_items_keyed|]. split; [|apply remaining_gone].
  rewrite read_items_keyed, delete_item_eq. cbn [fst store rows].
  unfold remaining. now rewrite filter_order_by_name, filter_comm.
Qed.

(** ** Ids *)




Lemma call_ids (f : fault) (c : call) (w : world) (i : Z) :
  In i (map id (rows (store (fst (run_call f c w))))) ->
  In i (map id (rows (store w))) \/ i = Sqlite.next_id (store w).
Proof.
  destruct c; cbn [run_call].
  - rewrite create_item_eq.
    destruct (first_failure name0 category0 quantity0 purchase_date0 status0 location0);
      [now left|].
    destruct f; try (now left).
    cbn [fst store rows]. rewrite map_app. intros H. apply in_app_or in H.
    destruct H as [H | [H | []]]; [now left | right; now rewrite <- H].
  - rewrite read_items_store. now left.
  - rewrite update_item_eq.
    destruct kwargs as [|kw kwargs]; [now left|].
    destruct (first_error (kw :: kwargs)) as [e|] eqn:Herr; [destruct e; now left|].
    destruct (effective (kw :: kwargs)); [now left|].
    destruct f; try (now left).
    cbn [fst store rows]. rewrite updated_rows_ids by assumption. now left.
  - rewrite delete_item_eq. destruct f; try (now left).
    cbn [fst store rows]. intros H. left.
    apply in_map_iff in H. destruct H as (r & Hr & H). apply filter_In in H.
    apply in_map_iff. exists r. tauto.
Qed.

Lemma later_invariant (w w' : world) :
  invariant (store w) -> later w w' ->
  invariant (store w') /\ seq (store w) <= seq (store w').
Proof.
  intros Hinv. induction 1 as [|f c w' Hl [IH1 IH2]]; [split; [exact Hinv | lia]|].
  destruct (call_invariant f c w' IH1) as [H1 H2]. split; [exact H1 | lia].
Qed.

(** X6. An id that has been given out and is not in the table (its row
    was deleted) never comes back, whatever calls follow: in every later
    state, each id up to the counter is the id of a row that was there
    all along. *)
Theorem ids_never_come_back (w w' : world) (i : Z) :
  reachable w -> later w w' ->
  i <= seq (store w) -> In i (map id (rows (store w'))) ->
  In i (map id (rows (store w))).
Proof.
  intros Hreach Hlater Hi. apply reachable_invariant in Hreach.
  induction Hlater as [|f c w' Hl IH]; [auto|].
  intros Hin. apply IH.
  destruct (call_ids f c w' i Hin) as [H | H]; [exact H|].
  destruct (later_invariant w w' Hreach Hl) as [_ Hseq].
  unfold Sqlite.next_id in H. lia.
Qed.

Lemma ids_never_come_back_witness :
  reachable emptied /\ later emptied relit /\ 1 <= seq (store emptied)
  /\ (In 1 (map id (rows (store relit))) -> In 1 (map id (rows (store emptied)))).
Proof.
  assert (Hr : reachable emptied).
  { exact (reach_call NoFault (Remove 1) _
             (reach_call NoFault
                (Create "Desk" "Furniture" 2 "2024-01-15" "in use" "Room 102" "" "")
                fresh reach_fresh)). }
  assert (Hl : later emptied relit).
  { exact (later_call emptied NoFault
             (Create "Lamp" "Lighting" 1 "2024-02-01" "in use" "Room 102" "" "")
             emptied (later_now emptied)). }
  assert (Hs : 1 <= seq (store emptied)) by (vm_compute; discriminate).
  split; [exact Hr|]. split; [exact Hl|]. split; [exact Hs|].
  exact (ids_never_come_back emptied relit 1 Hr Hl Hs).
Defined.

(** * The menu loop *)

(** ** Rules for the steps of a dialog *)

Lemma menu_reach_trans (d1 d2 d3 : db) :
  menu_reach d1 d2 -> menu_reach d2 d3 -> menu_reach d1 d3.
Proof.
  intros H12 H23. induction H23 as [|f c d' H IH Hc]; [exact H12|].
  now apply menu_reach_call.
Qed.

Lemma follows_refl (s : session) : follows s s.
Proof. split; [constructor | now exists []]. Qed.

Lemma follows_trans (s1 s2 s3 : session) : follows s1 s2 -> follows s2 s3 -> follows s1 s3.
Proof.
  intros [H1 (e1 & L1)] [H2 (e2 & L2)]. split; [eapply menu_reach_trans; eauto|].
  exists (e1 ++ e2)%list. now rewrite L1, L2, app_assoc.
Qed.

Lemma spec_weaken {A : Type} (c : C A) (Q Q' : A -> Prop) :
  (forall a, Q a -> Q' a) -> spec c Q -> spec c Q'.
Proof. intros HQ Hc s. destruct (Hc s) as [H1 H2]. split; auto. Qed.

Lemma spec_pure {A : Type} (a : A) (Q : A -> Prop) : Q a -> spec (pure a) Q.
Proof.
  intros Ha s. split; [apply follows_refl|].
  cbn. intros b Hb. inversion Hb; subst. exact Ha.
Qed.

Lemma spec_throw {A : Type} (e : failure) (Q : A -> Prop) : spec (throw e) Q.
Proof. intros s. split; [apply follows_refl | discriminate]. Qed.

Lemma spec_show (l : line) : spec (show l) any.
Proof. intros s. split; [split; [constructor | now exists []] | now intros]. Qed.

Lemma spec_show_all (ls : list line) : spec (show_all ls) any.
Proof. intros s. split; [split; [constructor | now exists []] | now intros]. Qed.

Lemma spec_input (p : prompt) : spec (input p) any.
Proof.
  intros s. unfold input. split; [|now intros].
  destruct (stdin s) as [|l rest] eqn:E; (split; [constructor|]); cbn [fst stdin].
  - now exists [].
  - now exists [l].
Qed.

Lemma spec_int (t : string) : spec (int t) any.
Proof.
  unfold int. destruct (read_int t); [now apply spec_pure | apply spec_throw ..].
Qed.

Lemma spec_method (f : fault) (c : call) :
  menu_call c -> spec (method (run_call f c)) any.
Proof.
  intros Hc s. unfold method. split; [|now intros].
  destruct (run_call f c (mkWorld (table s) [])) as [w r] eqn:E.
  split; cbn [fst table stdin]; [|now exists []].
  change w with (fst (w, r)). rewrite <- E.
  apply menu_reach_call; [constructor | exact Hc].
Qed.

Lemma spec_bind {A B : Type} (c : C A) (k : A -> C B) (Q : A -> Prop) (Q' : B -> Prop) :
  spec c Q -> (forall a, Q a -> spec (k a) Q') -> spec (and_then c k) Q'.
Proof.
  intros Hc Hk s. unfold and_then. destruct (Hc s) as [H1 H2].
  destruct (c s) as [s1 [a|e]]; cbn [fst snd] in *.
  - destruct (Hk a (H2 a eq_refl) s1) as [H3 H4].
    split; [eapply follows_trans; eauto | exact H4].
  - split; [exact H1 | discriminate].
Qed.

Lemma spec_except {A : Type} (body handler : C A) (Q : A -> Prop) :
  spec body Q -> spec handler Q -> spec (except_value_error body handler) Q.
Proof.
  intros Hb Hh s. unfold except_value_error. destruct (Hb s) as [H1 H2].
  destruct (body s) as [s1 [a|[| |[v| | |]]]]; cbn [fst snd] in *;
    try (split; [exact H1 | first [exact H2 | discriminate]]);
    destruct (Hh s1) as [H3 H4]; (split; [eapply follows_trans; eauto | exact H4]).
Qed.

Ltac spec_prim :=
  first
    [ apply spec_show
    | apply spec_show_all
    | apply spec_input
    | apply spec_int
    | apply spec_throw
    | apply spec_pure; exact I ].

Ltac spec_step :=
  first [ spec_prim | eapply spec_bind; [spec_prim | intros ? _] ].

(** ** The dialogs change the table by calls of the menu only *)

Lemma spec_display_items (f : fault) (items : pyret) : spec (display_items f items) any.
Proof.
  unfold display_items. eapply spec_bind with (Q := any).
  - destruct items; [exact (spec_method f (Read None) I) | |]; now apply spec_pure.
  - intros [|r|[|r l]] _; repeat spec_step.
Qed.

Lemma spec_list_all (f : fault) : spec (list_all f) any.
Proof.
  unfold list_all. eapply spec_bind; [exact (spec_method f (Read None) I)|].
  intros items _. apply spec_display_items.
Qed.

Lemma spec_search (f : fault) : spec (search f) any.
Proof.
  unfold search. do 5 spec_step.
  eapply spec_bind; [|intros items _; apply spec_display_items].
  match goal with
  | |- spec (method (read_items f (Some ?l))) _ =>
      exact (spec_method f (Read (Some l)) eq_refl)
  end.
Qed.

Lemma spec_add (f : fault) : spec (add f) any.
Proof.
  unfold add. spec_step. apply spec_except; [|apply spec_show].
  do 9 spec_step.
  eapply spec_bind; [|intros ? _; now apply spec_pure].
  match goal with
  | |- spec (method (create_item f ?a ?b ?c ?d ?e ?g ?h ?i)) _ =>
      exact (spec_method f (Create a b c d e g h i) I)
  end.
Qed.

Lemma or_none_entry (field s : string) :
  Forall menu_entry (filter (fun kv => negb (is_none (snd kv))) [(field, or_none s)]).
Proof.
  unfold or_none. destruct (String.eqb_spec s ""); cbn; constructor; [exact n | constructor].
Qed.

Lemma filter_cons_app {A : Type} (p : A -> bool) (x : A) (l : list A) :
  filter p (x :: l) = (filter p [x] ++ filter p l)%list.
Proof. cbn [filter]. destruct (p x); reflexivity. Qed.

Lemma spec_edit (f : fault) : spec (edit f) any.
Proof.
  unfold edit. apply spec_except; [|apply spec_show].
  do 6 spec_step.
  eapply spec_bind with (Q := fun v => v = PNone \/ exists n, v = PInt n).
  { destruct (_ =? _)%string; [apply spec_pure; now left|].
    eapply spec_bind; [apply spec_int|].
    intros n _. apply spec_pure. right. now exists n. }
  intros quantity Hq. do 5 spec_step.
  eapply spec_bind; [|intros ? _; now apply spec_pure].
  match goal with
  | |- spec (method (update_item f ?i ?k)) _ => apply (spec_method f (Change i k))
  end.
  cbn [menu_call].
  do 2 (rewrite filter_cons_app; apply Forall_app; split; [apply or_none_entry|]).
  rewrite filter_cons_app; apply Forall_app; split.
  { destruct Hq as [-> | (n & ->)]; cbn; constructor; [reflexivity | constructor]. }
  do 5 (rewrite filter_cons_app; apply Forall_app; split; [apply or_none_entry|]).
  constructor.
Qed.

Lemma spec_remove (f : fault) : spec (remove f) any.
Proof.
  unfold remove. apply spec_except; [|apply spec_show].
  do 3 spec_step.
  destruct (_ =? _)%string; [|now apply spec_pure].
  eapply spec_bind; [|intros ? _; now apply spec_pure].
  match goal with
  | |- spec (method (delete_item f ?i)) _ => exact (spec_method f (Remove i) I)
  end.
Qed.

Lemma spec_turn (f : fault) : spec (turn f) any.
Proof.
  unfold turn. do 2 spec_step.
  repeat (destruct (_ =? _)%string;
          [eapply spec_bind;
           [first [apply spec_list_all | apply spec_search | apply spec_add
                  | apply spec_edit | apply spec_remove | apply spec_show]
           | intros ? _; now apply spec_pure]|]).
  eapply spec_bind; [apply spec_show | intros ? _; now apply spec_pure].
Qed.

Lemma spec_main_loop (fuel : nat) : forall faults, spec (main_loop fuel faults) any.
Proof.
  induction fuel as [|fuel IH]; intros faults; cbn [main_loop];
    (eapply spec_bind; [apply spec_turn|]); intros [|] _;
    try (now apply spec_pure); [apply spec_throw | apply IH].
Qed.

(** ** The menu keeps the required fields filled in *)

Lemma supplied_in (kwargs : list (string * pyval)) (c : column) (v : pyval) :
  supplied c kwargs = Some v -> In (column_name c, v) kwargs.
Proof.
  intros H. apply last_value_in in H. now apply filter_In in H.
Qed.

Lemma required_kept (kwargs : list (string * pyval)) (c : column) (get : item -> string)
    (r : item) :
  (forall x, get_field c x = PStr (get x)) -> column_name c <> "quantity"%string ->
  first_error kwargs = None -> Forall menu_entry kwargs ->
  get r <> ""%string -> get (assign_all kwargs r) <> ""%string.
Proof.
  intros Hget Hc Herr Hmenu Hr.
  pose proof (assign_all_get kwargs r c Herr) as H. rewrite !Hget in H.
  destruct (supplied c kwargs) as [v|] eqn:E; [|congruence].
  apply supplied_in in E. rewrite Forall_forall in Hmenu.
  specialize (Hmenu _ E). unfold menu_entry in Hmenu. cbn [fst snd] in Hmenu.
  destruct v as [|n|s]; [contradiction | contradiction |].
  destruct c; cbn [stored] in H; congruence.
Qed.

Lemma assign_all_complete (kwargs : list (string * pyval)) (r : item) :
  first_error kwargs = None -> Forall menu_entry kwargs ->
  complete r -> complete (assign_all kwargs r).
Proof.
  intros Herr Hmenu (H1 & H2 & H3 & H4 & H5). unfold complete.
  split; [|split; [|split; [|split]]].
  - apply (required_kept kwargs Cname name); auto; discriminate.
  - apply (required_kept kwargs Ccategory category); auto; discriminate.
  - apply (required_kept kwargs Cpurchase_date purchase_date); auto; discriminate.
  - apply (required_kept kwargs Cstatus status); auto; discriminate.
  - apply (required_kept kwargs Clocation location); auto; discriminate.
Qed.

Lemma menu_call_good (f : fault) (c : call) (d : db) :
  menu_call c -> good d -> good (store (fst (run_call f c (mkWorld d [])))).
Proof.
  intros Hc [Hinv Hcomp]. split.
  { exact (proj1 (call_invariant f c (mkWorld d []) Hinv)). }
  destruct c; cbn [run_call menu_call] in *.
  - rewrite create_item_eq.
    destruct (first_failure name0 category0 quantity0 purchase_date0 status0 location0)
      eqn:Hok; [exact Hcomp|].
    destruct f; try exact Hcomp.
    cbn [fst store rows]. apply Forall_app. split; [exact Hcomp|].
    constructor; [|constructor].
    now apply (first_failure_sound _ _ _ _ _ _ responsible_person0 notes0
                 (Sqlite.next_id d)) in Hok.
  - now rewrite read_items_store.
  - rewrite update_item_eq.
    destruct kwargs as [|kw kwargs]; [exact Hcomp|].
    destruct (first_error (kw :: kwargs)) as [e|] eqn:Herr; [destruct e; exact Hcomp|].
    destruct (effective (kw :: kwargs)); [exact Hcomp|].
    destruct f; try exact Hcomp.
    cbn [fst store rows]. unfold updated_rows.
    apply Forall_forall. intros r' Hr'. apply in_map_iff in Hr'.
    destruct Hr' as (r & <- & Hr). rewrite Forall_forall in Hcomp.
    destruct (id r =? item_id); [|now apply Hcomp].
    apply assign_all_complete; auto.
  - rewrite delete_item_eq. destruct f; try exact Hcomp.
    cbn [fst store rows]. unfold remaining.
    apply Forall_forall. intros r Hr. apply filter_In in Hr.
    rewrite Forall_forall in Hcomp. now apply Hcomp.
Qed.

Lemma menu_reach_good (d d' : db) : menu_reach d d' -> good d -> good d'.
Proof.
  induction 1 as [|f c d' H IH Hc]; intros Hd; [exact Hd|].
  apply menu_call_good; auto.
Qed.

Lemma good_empty : good empty_db.
Proof.
  split; [|constructor]. unfold invariant, empty_db. cbn [rows seq].
  split; [lia|]. split; constructor.
Qed.

(** X7. Whatever is typed and however the engine is, a run of [main]
    leaves the five required fields of every record non-empty, every
    quantity at least zero, every date one that [strptime] accepts and
    the ids distinct and at most the counter, when the table was so
    before (as a new file is): the edit dialog turns an empty answer into
    [None], so [update_item] never gets an empty string from it. *)
Theorem main_keeps_records_complete
    (init_fault : fault) (faults : list fault) (file : option db) (typed : list string) :
  good (table_of file) ->
  good (table_of (fst (fst (main init_fault faults file typed)))).
Proof.
  intros Hgood. unfold main, init_db.
  destruct init_fault; cbn [fst table_of]; try exact Hgood;
    (destruct (main_loop (List.length typed) faults (mkSession (table_of file) [] typed))
      as [s r] eqn:E; cbn [fst table_of];
     destruct (spec_main_loop (List.length typed) faults
                 (mkSession (table_of file) [] typed)) as [[Hreach _] _];
     rewrite E in Hreach; cbn [fst table] in Hreach;
     exact (menu_reach_good _ _ Hreach Hgood)).
Qed.

Lemma main_keeps_records_complete_witness :
  good (table_of None)
  /\ good (table_of (fst (fst (main NoFault [] None
                                 ["3"; "Desk"; "Furniture"; "2"; "2024-01-15"; "in use";
                                  "Room 102"; ""; "";
                                  "4"; "1"; ""; ""; "7"; ""; ""; ""; ""; ""; "6"])))).
Proof.
  split; [exact good_empty|].
  apply main_keeps_records_complete. exact good_empty.
Defined.

(** ** Turns and the end of the loop *)

Lemma turn_eq (f : fault) (s : session) :
  turn f s
  = match stdin s with
    | [] => (mkSession (table s) ((screen s ++ menu) ++ [Ask AskChoice]) [], Err EOFError)
    | l :: rest =>
        dispatch f (strip l)
          (mkSession (table s) ((screen s ++ menu) ++ [Ask AskChoice]) rest)
    end.
Proof.
  unfold turn, and_then, show_all, input. cbn [stdin table screen].
  destruct (stdin s); reflexivity.
Qed.

Lemma spec_dispatch (f : fault) (choice : string) : spec (dispatch f choice) any.
Proof.
  unfold dispatch.
  repeat (destruct (_ =? _)%string;
          [eapply spec_bind;
           [first [apply spec_list_all | apply spec_search | apply spec_add
                  | apply spec_edit | apply spec_remove | apply spec_show]
           | intros ? _; now apply spec_pure]|]).
  eapply spec_bind; [apply spec_show | intros ? _; now apply spec_pure].
Qed.

Lemma then_false {A : Type} (c : C A) (s : session) :
  snd ((c ;;; pure false) s) <> Ok true.
Proof.
  unfold and_then, pure. destruct (c s) as [s' [a|e]]; cbn; discriminate.
Qed.

Lemma dispatch_true (f : fault) (choice : string) (s s' : session) :
  dispatch f choice s = (s', Ok true) ->
  choice = "6"%string /\ s' = mkSession (table s) (screen s ++ [Bye]) (stdin s).
Proof.
  unfold dispatch. intros H.
  repeat match type of H with
         | (if (?a =? ?b)%string then _ else _) _ = _ =>
             destruct (String.eqb_spec a b) as [E|_];
             [try (exfalso; eapply then_false; rewrite H; reflexivity)|]
         end.
  - inversion H. auto.
  - exfalso. eapply then_false. rewrite H. reflexivity.
Qed.

(** A turn that does not end the session has read at least one line. *)
Lemma turn_reads (f : fault) (s s' : session) (b : bool) :
  turn f s = (s', Ok b) ->
  exists l eaten, stdin s = (l :: eaten ++ stdin s')%list.
Proof.
  rewrite turn_eq. destruct (stdin s) as [|l rest]; [discriminate|].
  intros H. destruct (spec_dispatch f (strip l)
                        (mkSession (table s) ((screen s ++ menu) ++ [Ask AskChoice]) rest))
    as [[_ (eaten & He)] _].
  rewrite H in He. cbn [fst stdin] in He. exists l, eaten. now rewrite He.
Qed.

(** The fuel of [main_loop] is never used up: more of it changes nothing. *)
Lemma main_loop_fuel (n : nat) :
  forall (m : nat) (faults : list fault) (s : session),
    (List.length (stdin s) <= n)%nat -> (List.length (stdin s) <= m)%nat ->
    main_loop n faults s = main_loop m faults s.
Proof.
  induction n as [|n IH]; intros m faults s Hn Hm;
    destruct m as [|m]; cbn [main_loop]; unfold and_then;
    destruct (turn (hd NoFault faults) s) as [s' [[|]|e]] eqn:E; try reflexivity;
    destruct (turn_reads _ _ _ _ E) as (l & eaten & Hl);
    rewrite Hl in Hn, Hm; cbn [List.length] in Hn, Hm; rewrite length_app in Hn, Hm;
    try lia.
  apply IH; lia.
Qed.

Lemma main_loop_ok (fuel : nat) :
  forall (faults : list fault) (s s' : session),
    main_loop fuel faults s = (s', Ok tt) ->
    (exists shown, screen s' = (shown ++ [Bye])%list)
    /\ exists l, In l (stdin s) /\ strip l = "6"%string.
Proof.
  induction fuel as [|fuel IH]; intros faults s s'; cbn [main_loop]; unfold and_then;
    destruct (turn (hd NoFault faults) s) as [s1 [[|]|e]] eqn:E; try discriminate.
  - intros H. inversion H; subst. rewrite turn_eq in E.
    destruct (stdin s) as [|l rest]; [discriminate|].
    apply dispatch_true in E. destruct E as [E ->]. cbn [screen]. split; eauto.
    exists l. split; [now left | exact E].
  - intros H. inversion H; subst. rewrite turn_eq in E.
    destruct (stdin s) as [|l rest]; [discriminate|].
    apply dispatch_true in E. destruct E as [E ->]. cbn [screen]. split; eauto.
    exists l. split; [now left | exact E].
  - intros H. destruct (IH _ _ _ H) as [Hs (l & Hl & H6)]. split; [exact Hs|].
    destruct (turn_reads _ _ _ _ E) as (l0 & eaten & He).
    exists l. split; [|exact H6]. rewrite He. right. apply in_or_app. now right.
Qed.

(** X8. [main] returns only through choice 6: when it returns, the last
    line on the screen is the goodbye line and one of the lines typed was
    a 6 (blanks around it aside).  Otherwise it ends with an exception. *)
Theorem main_returns_after_six
    (init_fault : fault) (faults : list fault) (file file' : option db)
    (typed : list string) (shown : list line) :
  main init_fault faults file typed = (file', shown, Ok tt) ->
  (exists before, shown = (before ++ [Bye])%list)
  /\ exists l, In l typed /\ strip l = "6"%string.
Proof.
  unfold main. destruct (init_db init_fault file) as [file1 [u|e]]; [|discriminate].
  destruct (main_loop (List.length typed) faults (mkSession (table_of file1) [] typed))
    as [s r] eqn:E.
  intros H. inversion H; subst.
  exact (main_loop_ok _ _ _ _ E).
Qed.

Lemma main_returns_after_six_witness :
  main NoFault [] None ["9"; " 6 "; "1"]
  = (Some empty_db, (menu ++ [Ask AskChoice; BadChoice] ++ menu ++ [Ask AskChoice; Bye])%list,
     Ok tt)
  /\ exists l, In l ["9"; " 6 "; "1"] /\ strip l = "6"%string.
Proof.
  split; [reflexivity|].
  apply (main_returns_after_six NoFault [] None (Some empty_db) ["9"; " 6 "; "1"]
           (menu ++ [Ask AskChoice; BadChoice] ++ menu ++ [Ask AskChoice; Bye])%list).
  reflexivity.
Defined.
(** ** Deleting through the menu *)

Lemma lower_y (t : string) : lower t = "y" -> t = "y" \/ t = "Y".
Proof.
  destruct t as [|c t]; [discriminate|]. cbn [lower]. intros H.
  injection H as Hc Ht. destruct t; [|discriminate].
  destruct c as [[] [] [] [] [] [] [] []]; try discriminate Hc; auto.
Qed.

Lemma method_delete (f : fault) (i : Z) (s : session) :
  method (delete_item f i) s
  = (mkSession
       (match f with
        | NoFault => mkDb (remaining i (rows (table s))) (seq (table s))
        | _ => table s
        end)
       (screen s ++ match f with
                    | NoFault => [Said (delete_flag i (rows (table s)))]
                    | FailCommit => [Said (delete_flag i (rows (table s))); Said DeleteError]
                    | _ => [Said DeleteError]
                    end)
       (stdin s),
     Ok RNone).
Proof.
  unfold method. rewrite delete_item_eq. destruct f; reflexivity.
Qed.

(** X9. Deleting through the menu needs the confirmation: when choice 5
    changes the table, the first line read was an integer, the answer to
    the question "delete?" was y or Y (white space around it aside), the
    engine worked, and what changed is that the rows of that id are gone. *)
Theorem remove_needs_confirmation (f : fault) (s : session) :
  table (fst (remove f s)) <> table s ->
  exists l1 l2 rest i,
    stdin s = l1 :: l2 :: rest
    /\ read_int (strip l1) = Integer i
    /\ (strip l2 = "y" \/ strip l2 = "Y")
    /\ f = NoFault
    /\ table (fst (remove f s)) = mkDb (remaining i (rows (table s))) (seq (table s)).
Proof.
  unfold remove, except_value_error, and_then, int, input.
  destruct (stdin s) as [|l1 rest1] eqn:E1; [now cbn|].
  destruct (read_int (strip l1)) as [i| |] eqn:Ei;
    cbn [throw show fst table pure stdin screen]; try easy.
  destruct rest1 as [|l2 rest]; [now cbn|].
  destruct (String.eqb_spec (lower (strip l2)) "y") as [Hy|_]; [|now cbn].
  rewrite !method_delete. cbn [fst table pure stdin screen].
  destruct f; try easy. intros _. exists l1, l2, rest, i.
  split; [reflexivity|]. split; [exact Ei|]. split; [now apply lower_y|]. now split.
Qed.

Lemma remove_needs_confirmation_witness :
  exists l1 l2 rest i,
    stdin (mkSession (store relit) [] ["2"; " Y "; "6"]) = l1 :: l2 :: rest
    /\ read_int (strip l1) = Integer i
    /\ (strip l2 = "y" \/ strip l2 = "Y")
    /\ NoFault = NoFault
    /\ table (fst (remove NoFault (mkSession (store relit) [] ["2"; " Y "; "6"])))
       = mkDb (remaining i (rows (table (mkSession (store relit) [] ["2"; " Y "; "6"]))))
           (seq (table (mkSession (store relit) [] ["2"; " Y "; "6"]))).
Proof.
  apply (remove_needs_confirmation NoFault (mkSession (store relit) [] ["2"; " Y "; "6"])).
  vm_compute. discriminate.
Defined.

(** ** The dialogs at their edges *)

Lemma input_cons (p : prompt) (s : session) (l : string) (rest : list string) :
  stdin s = l :: rest ->
  input p s = (mkSession (table s) (screen s ++ [Ask p]) rest, Ok l).
Proof. unfold input. now intros ->. Qed.

(** X10. In the dialog of choice 3 a quantity that is no integer ends the
    dialog at once: the five questions after it are not asked, the error
    line is printed, nothing is stored, and the lines typed after it are
    left for the menu to read. *)
Theorem add_stops_at_bad_quantity
    (f : fault) (s : session) (n c q : string) (rest : list string) :
  stdin s = n :: c :: q :: rest ->
  read_int (strip q) = Invalid ->
  add f s
  = (mkSession (table s)
       (screen s ++ [AddTitle; Ask AskName; Ask AskCategory; Ask AskQuantity; IntError])
       rest,
     Ok tt).
Proof.
  intros Hs Hq. unfold add, except_value_error, and_then, show, input, int.
  cbn [stdin table screen]. rewrite Hs. cbn [stdin table screen]. rewrite Hq.
  cbn [throw stdin table screen]. now rewrite <- !app_assoc.
Qed.

Lemma add_stops_at_bad_quantity_witness :
  add NoFault (mkSession empty_db [] ["Desk"; "Furniture"; "two"; "6"])
  = (mkSession empty_db
       [AddTitle; Ask AskName; Ask AskCategory; Ask AskQuantity; IntError] ["6"],
     Ok tt).
Proof.
  apply (add_stops_at_bad_quantity NoFault
           (mkSession empty_db [] ["Desk"; "Furniture"; "two"; "6"])
           "Desk" "Furniture" "two" ["6"]); reflexivity.
Defined.

(** X11. An edit with every answer left blank changes nothing and does
    not reach the engine: whatever the engine would do, [update_item] gets
    no field and prints that there is nothing to update. *)
Theorem edit_all_blank
    (f : fault) (s : session) (l0 : string) (i : Z) (answers rest : list string) :
  stdin s = (l0 :: answers ++ rest)%list ->
  read_int (strip l0) = Integer i ->
  List.length answers = 8%nat ->
  Forall (fun a => strip a = "") answers ->
  edit f s
  = (mkSession (table s)
       (screen s ++ [Ask AskEditId; EditHint; Ask AskName; Ask AskCategory; Ask AskQuantity;
                     Ask AskDate; Ask AskStatus; Ask AskLocation; Ask AskResponsible;
                     Ask AskNotes; Said NoData])
       rest,
     Ok tt).
Proof.
  intros Hs Hi Hn Hb.
  do 8 (destruct answers as [|? answers]; [discriminate|]).
  destruct answers; [|discriminate].
  repeat match goal with
         | H : Forall _ (_ :: _) |- _ => inversion H; subst; clear H
         end.
  unfold edit, except_value_error, and_then, show, input, int.
  cbn [stdin table screen]. rewrite Hs. cbn [stdin table screen]. rewrite Hi.
  cbn [app pure stdin table screen].
  repeat (cbn [String.eqb or_none pure filter snd is_none negb app stdin table screen];
          match goal with
          | H : strip _ = "" |- _ => rewrite !H; clear H
          end).
  cbn [String.eqb or_none pure filter snd is_none negb app stdin table screen].
  unfold method. rewrite update_item_eq. cbn [say store console map app pure table screen stdin].
  now rewrite <- !app_assoc.
Qed.

Lemma edit_all_blank_witness :
  edit FailConnect
    (mkSession empty_db [] ["7"; ""; " "; ""; ""; ""; ""; ""; ""; "6"])
  = (mkSession empty_db
       [Ask AskEditId; EditHint; Ask AskName; Ask AskCategory; Ask AskQuantity;
        Ask AskDate; Ask AskStatus; Ask AskLocation; Ask AskResponsible;
        Ask AskNotes; Said NoData]
       ["6"],
     Ok tt).
Proof.
  apply (edit_all_blank FailConnect
           (mkSession empty_db [] ["7"; ""; " "; ""; ""; ""; ""; ""; ""; "6"])
           "7" 7 [""; " "; ""; ""; ""; ""; ""; ""] ["6"]);
    [reflexivity | reflexivity | reflexivity | repeat constructor].
Defined.

(** ** What the listing and the search show *)

Lemma read_items_fault (f : fault) (filters : option (list (string * string))) (w : world) :
  read_items f filters w
  = match f with
    | FailConnect | FailExecute => (say w [ReadError], Returned (RRows []))
    | _ => read_items NoFault filters w
    end.
Proof.
  destruct f; try reflexivity;
    unfold read_items, try_except, read_items_body, bind, connect, execute;
    destruct (read_query filters) as [query params]; destruct w; reflexivity.
Qed.

Lemma display_rows (f : fault) (l : list item) (s : session) :
  display_items f (RRows l) s
  = (mkSession (table s) (screen s ++ table_lines l) (stdin s), Ok tt).
Proof.
  unfold display_items, and_then, pure, show, show_all, table_lines.
  destruct l as [|r l]; [reflexivity|]. cbn [table screen stdin].
  now rewrite <- !app_assoc.
Qed.


Lemma method_read_all (f : fault) (s : session) :
  method (read_items f None) s
  = match f with
    | FailConnect | FailExecute =>
        (mkSession (table s) (screen s ++ [Said ReadError]) (stdin s), Ok (RRows []))
    | _ =>
        (mkSession (table s) (screen s) (stdin s),
         Ok (RRows (Sqlite.order_by_name (rows (table s)))))
    end.
Proof.
  unfold method. rewrite read_items_fault.
  destruct f; try rewrite read_items_none; cbn [say store console map app];
    now rewrite ?app_nil_r.
Qed.



Lemma list_all_eq (f : fault) (s : session) :
  list_all f s
  = (mkSession (table s)
       (screen s
          ++ match f with
             | FailConnect | FailExecute => [Said ReadError; NoRecords]
             | _ => table_lines (Sqlite.order_by_name (rows (table s)))
             end)
       (stdin s),
     Ok tt).
Proof.
  unfold list_all, and_then. rewrite method_read_all.
  destruct f; rewrite display_rows; cbn [table screen stdin table_lines];
    now rewrite <- ?app_assoc.
Qed.

(** X13. Choice 1 shows the whole table ordered by name, with its total,
    or that there are no records when it is empty; when the engine fails
    to connect or to execute it shows the read error and then that there
    are no records.  It reads no line and changes nothing, and
    [display_items()] without an argument shows the same. *)
Theorem list_all_shows (f : fault) (s : session) :
  list_all f s
  = (mkSession (table s)
       (screen s
          ++ match f with
             | FailConnect | FailExecute => [Said ReadError; NoRecords]
             | _ => table_lines (Sqlite.order_by_name (rows (table s)))
             end)
       (stdin s),
     Ok tt)
  /\ display_items f RNone s = list_all f s.
Proof.
  split; [apply list_all_eq|]. rewrite list_all_eq.
  unfold display_items, and_then. rewrite method_read_all.
  destruct f;
    destruct (Sqlite.order_by_name (rows (table s)));
    unfold show, show_all, pure, table_lines; cbn [table screen stdin];
    now rewrite <- ?app_assoc.
Qed.

(** ** [sqlite3.Error] *)

Lemma run_call_calm (f : fault) (c : call) (w : world) :
  snd (run_call f c w) <> Raised SqliteError.
Proof.
  destruct c as [n c q d st l r nt | filters | i kwargs | i]; cbn [run_call].
  - rewrite create_item_eq. destruct (first_failure _ _ _ _ _ _); [discriminate|].
    destruct f; discriminate.
  - unfold read_items, try_except.
    destruct (read_items_body f filters w) as [w' [v|[]]]; cbn; discriminate.
  - rewrite update_item_eq. destruct kwargs; [discriminate|].
    destruct (first_error _) as [[]|]; try discriminate.
    destruct (effective _); [discriminate|]. destruct f; discriminate.
  - rewrite delete_item_eq. destruct f; discriminate.
Qed.

Lemma calm_pure {A : Type} (a : A) : calm (pure a).
Proof. intros s. discriminate. Qed.

Lemma calm_throw {A : Type} (e : failure) : e <> Method SqliteError -> calm (@throw A e).
Proof. intros He s H. apply He. now injection H. Qed.

Lemma calm_show (l : line) : calm (show l).
Proof. intros s. discriminate. Qed.

Lemma calm_show_all (ls : list line) : calm (show_all ls).
Proof. intros s. discriminate. Qed.

Lemma calm_input (p : prompt) : calm (input p).
Proof. intros s. unfold input. destruct (stdin s); discriminate. Qed.

Lemma calm_int (t : string) : calm (int t).
Proof. intros s. unfold int. destruct (read_int t); discriminate. Qed.

Lemma calm_method (f : fault) (c : call) : calm (method (run_call f c)).
Proof.
  intros s. unfold method. pose proof (run_call_calm f c (mkWorld (table s) [])) as H.
  destruct (run_call f c (mkWorld (table s) [])) as [w [v|e]]; [discriminate|].
  cbn [snd] in *. intros E. apply H. now injection E as ->.
Qed.

Lemma calm_bind {A B : Type} (c : C A) (k : A -> C B) :
  calm c -> (forall a, calm (k a)) -> calm (and_then c k).
Proof.
  intros Hc Hk s. unfold and_then. specialize (Hc s).
  destruct (c s) as [s' [a|e]]; [apply Hk|].
  cbn [snd] in *. intros E. apply Hc. now injection E as ->.
Qed.

Lemma calm_except {A : Type} (body handler : C A) :
  calm body -> calm handler -> calm (except_value_error body handler).
Proof.
  intros Hb Hh s. unfold except_value_error. specialize (Hb s).
  destruct (body s) as [s' [a|[| |[]]]]; try discriminate; try apply Hh; exact Hb.
Qed.

Ltac calm_step :=
  lazymatch goal with
  | |- calm (pure _) => apply calm_pure
  | |- calm (show _) => apply calm_show
  | |- calm (show_all _) => apply calm_show_all
  | |- calm (input _) => apply calm_input
  | |- calm (int _) => apply calm_int
  | |- calm (throw _) => apply calm_throw; discriminate
  | |- calm (method (read_items ?f ?x)) => exact (calm_method f (Read x))
  | |- calm (method (create_item ?f ?a ?b ?c ?d ?e ?g ?h ?i)) =>
      exact (calm_method f (Create a b c d e g h i))
  | |- calm (method (update_item ?f ?i ?k)) => exact (calm_method f (Change i k))
  | |- calm (method (delete_item ?f ?i)) => exact (calm_method f (Remove i))
  | |- calm (except_value_error _ _) => apply calm_except
  | |- calm (and_then _ _) => apply calm_bind; [|intros ?]
  | |- calm (if ?b then _ else _) => destruct b
  | |- calm (let _ := _ in _) => cbv zeta
  end.

Lemma calm_display_items (f : fault) (items : pyret) : calm (display_items f items).
Proof.
  unfold display_items. apply calm_bind.
  - destruct items; calm_step.
  - intros [| r | [|r l]]; repeat calm_step.
Qed.

Lemma calm_turn (f : fault) : calm (turn f).
Proof.
  unfold turn, list_all, search, add, edit, remove.
  repeat first [apply calm_display_items | calm_step].
Qed.

Lemma calm_main_loop (fuel : nat) : forall faults, calm (main_loop fuel faults).
Proof.
  induction fuel as [|fuel IH]; intros faults; cbn [main_loop];
    (apply calm_bind; [apply calm_turn | intros [|]; [calm_step|]]).
  - calm_step.
  - apply IH.
Qed.

(** X14. [main] ends with [sqlite3.Error] exactly when [init_db], called
    by the constructor, fails to connect or to create the table; nothing
    was printed or read then, and the file is as it was.  Inside the loop
    no failure of the engine gets out of the four methods. *)
Theorem sqlite_error_only_at_startup
    (init_fault : fault) (faults : list fault) (file : option db) (typed : list string) :
  (snd (main init_fault faults file typed) = Err (Method SqliteError)
   <-> init_fault = FailConnect \/ init_fault = FailExecute)
  /\ (snd (main init_fault faults file typed) = Err (Method SqliteError) ->
      main init_fault faults file typed = (file, [], Err (Method SqliteError))).
Proof.
  assert (Hloop : (init_fault = NoFault \/ init_fault = FailCommit) ->
                  snd (main init_fault faults file typed) <> Err (Method SqliteError)).
  { intros Hf. unfold main.
    assert (init_db init_fault file = (Some (table_of file), Returned tt)) as ->
        by (destruct Hf as [-> | ->]; reflexivity).
    pose proof (calm_main_loop (List.length typed) faults
                  (mkSession (table_of (Some (table_of file))) [] typed)) as H.
    destruct (main_loop _ _ _) as [s r]. exact H. }
  split; [split|].
  - intros H. destruct init_fault; auto; exfalso; apply Hloop; auto.
  - intros [-> | ->]; reflexivity.
  - intros H. destruct init_fault; try reflexivity; exfalso; apply Hloop; auto.
Qed.

Lemma sqlite_error_only_at_startup_witness :
  main FailConnect [NoFault] (Some (store relit)) ["1"; "6"]
  = (Some (store relit), [], Err (Method SqliteError)).
Proof.
  apply (proj2 (sqlite_error_only_at_startup FailConnect [NoFault] (Some (store relit))
                  ["1"; "6"])).
  reflexivity.
Defined.

(** ** Adding, then listing *)



